(** * slidie-ttyd: script generators and launcher

    A shallow embedding of [slidie_ttyd/script_generators.py] and
    [slidie_ttyd/runner.py].

    The generators build the text of a small Python program by
    interpolating [repr] of their arguments into an f-string, then pass
    the text through [textwrap.dedent] and [str.strip].  The launcher
    runs that text with [python -c], possibly behind [ssh], in which
    case the text is quoted once more with [shlex.quote].

    Python strings are sequences of Unicode code points; they are
    modelled as lists of [N].  The Python built-ins the source relies on
    ([repr], [str.join], [str.partition], [dict], [textwrap.dedent],
    [str.strip], [shlex.quote]) are embedded as functions on such lists,
    and the consumers of the generated text (the Python lexer on string,
    list and dict displays, the POSIX shell word splitter) as small
    state machines, so that "what the interpreter reads back" is a
    function that can be evaluated. *)

From Stdlib Require Import List NArith ZArith Ascii String Bool Lia.
Import ListNotations.

Local Open Scope N_scope.

(** ** Python strings *)

Definition char := N.
Definition str := list char.

(** Source-text literals: a Rocq string read as its code points. *)
Definition lit (s : string) : str :=
  map N_of_ascii (list_ascii_of_string s).

Definition NL : char := 10.
Definition TAB : char := 9.
Definition CR : char := 13.
Definition SPACE : char := 32.
Definition DQUOTE : char := 34.
Definition SQUOTE : char := 39.
Definition BACKSLASH : char := 92.

(** The largest code point is U+10FFFF. *)
Definition valid_char (c : char) : bool := c <? 1114112.
Definition valid_str (s : str) : bool := forallb valid_char s.

Fixpoint str_eqb (a b : str) : bool :=
  match a, b with
  | [], [] => true
  | x :: a', y :: b' => (x =? y) && str_eqb a' b'
  | _, _ => false
  end.

Definition contains (c : char) (s : str) : bool := existsb (N.eqb c) s.

(** [sep.join(parts)] *)
Fixpoint join (sep : str) (parts : list str) : str :=
  match parts with
  | [] => []
  | [p] => p
  | p :: rest => p ++ sep ++ join sep rest
  end.

(** [s.partition(sep)] for a one-character separator: the text before
    the first occurrence, the separator if it was found, the text after
    it. *)
Fixpoint partition (sep : char) (s : str) : str * str * str :=
  match s with
  | [] => ([], [], [])
  | c :: rest =>
      if c =? sep then ([], [sep], rest)
      else let '(before, found, after) := partition sep rest in
           (c :: before, found, after)
  end.

(** ** [repr] of strings, lists, dicts and [None] *)

Definition hexchar (d : N) : char :=
  if d <? 10 then 48 + d else 87 + d.

(** [n] lower-case hexadecimal digits of [c], most significant first
    (the [%02x], [%04x] and [%08x] of [unicode_repr]). *)
Fixpoint hexdigits (n : nat) (c : N) : str :=
  match n with
  | O => []
  | S n' => hexchar ((c / 16 ^ N.of_nat n') mod 16) :: hexdigits n' c
  end.

Section Repr.

(** [str.isprintable] on the code points above U+007F is a table of
    the Unicode character database; the development is parametric in
    it. *)
Variable uni_printable : char -> bool.

Definition isprintable (c : char) : bool :=
  if c <? 128 then (32 <=? c) && (c <? 127) else uni_printable c.

(** One character of [repr(s)], for the chosen [quote]. *)
Definition repr_char (quote : char) (c : char) : str :=
  if (c =? quote) || (c =? BACKSLASH) then [BACKSLASH; c]
  else if c =? TAB then [BACKSLASH; 116]
  else if c =? NL then [BACKSLASH; 110]
  else if c =? CR then [BACKSLASH; 114]
  else if (c <? SPACE) || (c =? 127) then
    BACKSLASH :: 120 :: hexdigits 2 c
  else if c <? 127 then [c]
  else if isprintable c then [c]
  else if c <=? 255 then BACKSLASH :: 120 :: hexdigits 2 c
  else if c <=? 65535 then BACKSLASH :: 117 :: hexdigits 4 c
  else BACKSLASH :: 85 :: hexdigits 8 c.

(** Double quotes are used only when the text has a single quote and
    no double quote. *)
Definition repr_quote (s : str) : char :=
  if contains SQUOTE s && negb (contains DQUOTE s) then DQUOTE else SQUOTE.

Definition repr_body (quote : char) (s : str) : str :=
  flat_map (repr_char quote) s.

Definition repr_str (s : str) : str :=
  let q := repr_quote s in q :: repr_body q s ++ [q].

Definition repr_list (l : list str) : str :=
  91 :: join (lit ", ") (map repr_str l) ++ [93].

Definition repr_item (kv : str * str) : str :=
  repr_str (fst kv) ++ lit ": " ++ repr_str (snd kv).

Definition repr_dict (d : list (str * str)) : str :=
  123 :: join (lit ", ") (map repr_item d) ++ [125].

Definition repr_opt (o : option str) : str :=
  match o with
  | None => lit "None"
  | Some s => repr_str s
  end.

End Repr.

(** ** The reader of the generated text: Python's lexer on literals

    A string literal is read one character at a time.  Only the short
    (single-line) form is modelled: a literal that opens with three
    quotes, a prefixed literal, an octal or named escape and an
    unrecognised escape make the model give up ([None]).  A raw newline
    inside the literal ends it with an error, as in Python. *)

Inductive lex_state : Type :=
| Plain
| Escaped
| HexDigits (remaining : nat) (value : N).

Definition hexval (c : char) : option N :=
  if (48 <=? c) && (c <=? 57) then Some (c - 48)
  else if (97 <=? c) && (c <=? 102) then Some (c - 87)
  else if (65 <=? c) && (c <=? 70) then Some (c - 55)
  else None.

Definition emit (c : char) (r : option (str * str)) : option (str * str) :=
  match r with
  | Some (v, rest) => Some (c :: v, rest)
  | None => None
  end.

Fixpoint lex_body (quote : char) (st : lex_state) (s : str)
  : option (str * str) :=
  match s with
  | [] => None
  | c :: r =>
      match st with
      | Plain =>
          if c =? quote then Some ([], r)
          else if c =? BACKSLASH then lex_body quote Escaped r
          else if c =? NL then None
          else emit c (lex_body quote Plain r)
      | Escaped =>
          if c =? BACKSLASH then emit BACKSLASH (lex_body quote Plain r)
          else if c =? SQUOTE then emit SQUOTE (lex_body quote Plain r)
          else if c =? DQUOTE then emit DQUOTE (lex_body quote Plain r)
          else if c =? 110 then emit NL (lex_body quote Plain r)
          else if c =? 114 then emit CR (lex_body quote Plain r)
          else if c =? 116 then emit TAB (lex_body quote Plain r)
          else if c =? 97 then emit 7 (lex_body quote Plain r)
          else if c =? 98 then emit 8 (lex_body quote Plain r)
          else if c =? 102 then emit 12 (lex_body quote Plain r)
          else if c =? 118 then emit 11 (lex_body quote Plain r)
          else if c =? NL then lex_body quote Plain r
          else if c =? 120 then lex_body quote (HexDigits 2 0) r
          else if c =? 117 then lex_body quote (HexDigits 4 0) r
          else if c =? 85 then lex_body quote (HexDigits 8 0) r
          else None
      | HexDigits O _ => None
      | HexDigits (S n) v =>
          match hexval c with
          | None => None
          | Some d =>
              let v' := 16 * v + d in
              match n with
              | O => if valid_char v' then emit v' (lex_body quote Plain r)
                     else None
              | S _ => lex_body quote (HexDigits n v') r
              end
          end
      end
  end.

Definition is_quote (c : char) : bool := (c =? SQUOTE) || (c =? DQUOTE).

(** A string literal at the head of [s]: its value and the text that
    follows it. *)
Definition parse_str (s : str) : option (str * str) :=
  match s with
  | q :: r =>
      if is_quote q then
        match r with
        | q1 :: q2 :: _ =>
            if (q1 =? q) && (q2 =? q) then None else lex_body q Plain r
        | _ => lex_body q Plain r
        end
      else None
  | [] => None
  end.

(** Blanks between tokens. *)
Fixpoint skip_blanks (s : str) : str :=
  match s with
  | c :: r => if (c =? SPACE) || (c =? TAB) then skip_blanks r else s
  | [] => []
  end.

(** [expect p s]: [s] with the fixed text [p] removed from its head. *)
Fixpoint expect (p s : str) : option str :=
  match p, s with
  | [], _ => Some s
  | a :: p', b :: s' => if a =? b then expect p' s' else None
  | _ :: _, [] => None
  end.

(** The next token is the punctuation [c]. *)
Definition punct (c : char) (s : str) : option str :=
  expect [c] (skip_blanks s).

Definition COMMA : char := 44.
Definition COLON : char := 58.
Definition LBRACKET : char := 91.
Definition RBRACKET : char := 93.
Definition LBRACE : char := 123.
Definition RBRACE : char := 125.

(** The items of a list display after the opening bracket; [fuel]
    bounds the number of items. *)
Fixpoint parse_list_items (fuel : nat) (s : str) : option (list str * str) :=
  match fuel with
  | O => None
  | S fuel' =>
      match parse_str (skip_blanks s) with
      | None => None
      | Some (v, r) =>
          match punct RBRACKET r with
          | Some r' => Some ([v], r')
          | None =>
              match punct COMMA r with
              | None => None
              | Some r' =>
                  match punct RBRACKET r' with
                  | Some r'' => Some ([v], r'')
                  | None =>
                      match parse_list_items fuel' r' with
                      | Some (vs, r'') => Some (v :: vs, r'')
                      | None => None
                      end
                  end
              end
          end
      end
  end.

Definition parse_list (s : str) : option (list str * str) :=
  match expect [LBRACKET] s with
  | None => None
  | Some r =>
      match punct RBRACKET r with
      | Some r' => Some ([], r')
      | None => parse_list_items (List.length r) r
      end
  end.

(** The items of a dict display, as written (a repeated key is resolved
    when the dict is built, see [dict_of_pairs]). *)
Fixpoint parse_dict_items (fuel : nat) (s : str)
  : option (list (str * str) * str) :=
  match fuel with
  | O => None
  | S fuel' =>
      match parse_str (skip_blanks s) with
      | None => None
      | Some (k, r) =>
          match punct COLON r with
          | None => None
          | Some r1 =>
              match parse_str (skip_blanks r1) with
              | None => None
              | Some (v, r2) =>
                  match punct RBRACE r2 with
                  | Some r' => Some ([(k, v)], r')
                  | None =>
                      match punct COMMA r2 with
                      | None => None
                      | Some r' =>
                          match punct RBRACE r' with
                          | Some r'' => Some ([(k, v)], r'')
                          | None =>
                              match parse_dict_items fuel' r' with
                              | Some (kvs, r'') => Some ((k, v) :: kvs, r'')
                              | None => None
                              end
                          end
                      end
                  end
              end
          end
      end
  end.

Definition parse_dict (s : str) : option (list (str * str) * str) :=
  match expect [LBRACE] s with
  | None => None
  | Some r =>
      match punct RBRACE r with
      | Some r' => Some ([], r')
      | None => parse_dict_items (List.length r) r
      end
  end.

Definition is_ident_char (c : char) : bool :=
  ((48 <=? c) && (c <=? 57)) || ((65 <=? c) && (c <=? 90))
  || ((97 <=? c) && (c <=? 122)) || (c =? 95) || (128 <=? c).

(** [None] or a string literal. *)
Definition parse_opt (s : str) : option (option str * str) :=
  match expect (lit "None") s with
  | Some r =>
      match r with
      | c :: _ => if is_ident_char c then None else Some (None, r)
      | [] => Some (None, r)
      end
  | None =>
      match parse_str s with
      | Some (v, r) => Some (Some v, r)
      | None => None
      end
  end.

(** ** [textwrap.dedent] and [str.strip] *)

(** [text.split("\n")], with the line read so far in [cur]. *)
Fixpoint split_nl (cur : str) (s : str) : list str :=
  match s with
  | [] => [cur]
  | c :: r => if c =? NL then cur :: split_nl [] r
              else split_nl (cur ++ [c]) r
  end.

Definition is_blank (c : char) : bool := (c =? SPACE) || (c =? TAB).

Definition whitespace_only (l : str) : bool := forallb is_blank l.

Fixpoint leading_blanks (l : str) : str :=
  match l with
  | c :: r => if is_blank c then c :: leading_blanks r else []
  | [] => []
  end.

Fixpoint common_prefix (a b : str) : str :=
  match a, b with
  | x :: a', y :: b' => if x =? y then x :: common_prefix a' b' else []
  | _, _ => []
  end.

Definition remove_prefix (p l : str) : str :=
  match expect p l with
  | Some r => r
  | None => l
  end.

(** [dedent]: lines of blanks only become empty; the margin is the
    longest run of blanks that starts every other line; it is removed
    from each line that starts with it. *)
Definition dedent (text : str) : str :=
  let lines :=
    map (fun l => if whitespace_only l then [] else l) (split_nl [] text) in
  let indents :=
    map leading_blanks (filter (fun l => negb (whitespace_only l)) lines) in
  let margin :=
    match indents with
    | [] => []
    | i :: rest => fold_left common_prefix rest i
    end in
  join [NL] (map (remove_prefix margin) lines).

(** [str.isspace] on one code point. *)
Definition isspace (c : char) : bool :=
  ((9 <=? c) && (c <=? 13)) || ((28 <=? c) && (c <=? 32))
  || (c =? 133) || (c =? 160) || (c =? 5760)
  || ((8192 <=? c) && (c <=? 8202))
  || (c =? 8232) || (c =? 8233) || (c =? 8239) || (c =? 8287)
  || (c =? 12288).

Fixpoint lstrip (s : str) : str :=
  match s with
  | c :: r => if isspace c then lstrip r else s
  | [] => []
  end.

Definition rstrip (s : str) : str := rev (lstrip (rev s)).

Definition strip (s : str) : str := lstrip (rstrip s).

(** ** script_generators.py *)

Definition dq (s : str) : str := DQUOTE :: s ++ [DQUOTE].

Section Generators.

Variable uni_printable : char -> bool.

(** ["\n".join(history) + "\n"] *)
Definition history_lines (history : list str) : str :=
  join [NL] history ++ [NL].

(** The f-string of [make_shell_command], before [dedent]. *)
Definition shell_fstring
  (cwd : option str) (env : list (str * str)) (history : list str) : str :=
  [NL]
  ++ lit "            import os, sys, subprocess, tempfile" ++ [NL]
  ++ lit "            from pathlib import Path" ++ [NL]
  ++ lit "            with tempfile.TemporaryDirectory() as d:" ++ [NL]
  ++ lit "                h = Path(d) / " ++ dq (lit "history") ++ [NL]
  ++ lit "                h.write_text("
       ++ repr_str uni_printable (history_lines history) ++ lit ")" ++ [NL]
  ++ lit "                env = dict(os.environ, HISTFILE=h, **"
       ++ repr_dict uni_printable env ++ lit ")" ++ [NL]
  ++ lit "                sys.exit(" ++ [NL]
  ++ lit "                    subprocess.run(" ++ [NL]
  ++ lit "                        env.get(" ++ dq (lit "SHELL") ++ lit ", "
       ++ dq (lit "bash") ++ lit ")," ++ [NL]
  ++ lit "                        env=env," ++ [NL]
  ++ lit "                        cwd=" ++ repr_opt uni_printable cwd ++ lit "," ++ [NL]
  ++ lit "                    ).returncode" ++ [NL]
  ++ lit "                )" ++ [NL]
  ++ lit "        ".

Definition make_shell_command
  (cwd : option str) (env : list (str * str)) (history : list str) : str :=
  strip (dedent (shell_fstring cwd env history)).

(** The f-string of [make_run_command], before [dedent]. *)
Definition run_fstring
  (command : list str) (cwd : option str) (env : list (str * str)) : str :=
  [NL]
  ++ lit "            import os, sys, subprocess" ++ [NL]
  ++ lit "            sys.exit(" ++ [NL]
  ++ lit "                subprocess.run(" ++ [NL]
  ++ lit "                    " ++ repr_list uni_printable command ++ lit "," ++ [NL]
  ++ lit "                    cwd=" ++ repr_opt uni_printable cwd ++ lit "," ++ [NL]
  ++ lit "                    env=dict(os.environ, **"
       ++ repr_dict uni_printable env ++ lit ")," ++ [NL]
  ++ lit "                ).returncode" ++ [NL]
  ++ lit "            )" ++ [NL]
  ++ lit "        ".

Definition make_run_command
  (command : list str) (cwd : option str) (env : list (str * str)) : str :=
  strip (dedent (run_fstring command cwd env)).

End Generators.

(** ** Python dicts

    A dict keeps its keys in insertion order, each key once; it is an
    association list built only through [dict_set]. *)

Definition dict := list (str * str).

Fixpoint dict_get (k : str) (d : dict) : option str :=
  match d with
  | [] => None
  | (k', v) :: rest => if str_eqb k k' then Some v else dict_get k rest
  end.

(** [d[k] = v]: the value is replaced where the key already is, a new
    key goes last. *)
Fixpoint dict_set (k v : str) (d : dict) : dict :=
  match d with
  | [] => [(k, v)]
  | (k', v') :: rest =>
      if str_eqb k k' then (k', v) :: rest else (k', v') :: dict_set k v rest
  end.

(** [d.update(items)] *)
Definition dict_update (d : dict) (items : list (str * str)) : dict :=
  fold_left (fun acc kv => dict_set (fst kv) (snd kv) acc) items d.

(** [dict(items)], also the value of a dict display with these items. *)
Definition dict_of_pairs (items : list (str * str)) : dict :=
  dict_update [] items.

Definition keys (d : dict) : list str := map fst d.

Definition get_default (k : str) (default : str) (d : dict) : str :=
  match dict_get k d with
  | Some v => v
  | None => default
  end.

(** ** Running the generated programs

    The two programs have a fixed shape with literals in known places.
    Reading a program checks the fixed text character by character and
    reads each literal with the lexer above; a text of another shape is
    not read ([NotRead]).  Evaluation then follows Python: the dict
    display is built, the keyword arguments of [dict(...)] are collected
    (a keyword given twice is a [TypeError]), [os.environ] is copied and
    updated with them, and [subprocess.run] is reached.  In the shell
    program the history file is written first, which raises
    [UnicodeEncodeError] when the text cannot be encoded. *)

Notation "'do' x <- a ; b" :=
  (match a with Some x => b | None => None end)
  (at level 10, x pattern, a at level 100, b at level 200).

Definition RUN_HEAD : str :=
  lit "import os, sys, subprocess" ++ [NL]
  ++ lit "sys.exit(" ++ [NL]
  ++ lit "    subprocess.run(" ++ [NL]
  ++ lit "        ".
Definition RUN_CWD : str := lit "," ++ [NL] ++ lit "        cwd=".
Definition RUN_ENV : str :=
  lit "," ++ [NL] ++ lit "        env=dict(os.environ, **".
Definition RUN_TAIL : str :=
  lit ")," ++ [NL] ++ lit "    ).returncode" ++ [NL] ++ lit ")".

(** The literals of a run program: the argument list, the working
    directory and the items of the dict display. *)
Definition read_run_script (script : str)
  : option (list str * option str * list (str * str)) :=
  do r0 <- expect RUN_HEAD script;
  do (command, r1) <- parse_list r0;
  do r2 <- expect RUN_CWD r1;
  do (cwd, r3) <- parse_opt r2;
  do r4 <- expect RUN_ENV r3;
  do (items, r5) <- parse_dict r4;
  do r6 <- expect RUN_TAIL r5;
  match r6 with
  | [] => Some (command, cwd, items)
  | _ :: _ => None
  end.

Definition SHELL_HEAD : str :=
  lit "import os, sys, subprocess, tempfile" ++ [NL]
  ++ lit "from pathlib import Path" ++ [NL]
  ++ lit "with tempfile.TemporaryDirectory() as d:" ++ [NL]
  ++ lit "    h = Path(d) / " ++ dq (lit "history") ++ [NL]
  ++ lit "    h.write_text(".
Definition SHELL_ENV : str :=
  lit ")" ++ [NL] ++ lit "    env = dict(os.environ, HISTFILE=h, **".
Definition SHELL_CWD : str :=
  lit ")" ++ [NL]
  ++ lit "    sys.exit(" ++ [NL]
  ++ lit "        subprocess.run(" ++ [NL]
  ++ lit "            env.get(" ++ dq (lit "SHELL") ++ lit ", "
       ++ dq (lit "bash") ++ lit ")," ++ [NL]
  ++ lit "            env=env," ++ [NL]
  ++ lit "            cwd=".
Definition SHELL_TAIL : str :=
  lit "," ++ [NL] ++ lit "        ).returncode" ++ [NL] ++ lit "    )".

(** The literals of a shell program: the text written to the history
    file, the items of the dict display and the working directory. *)
Definition read_shell_script (script : str)
  : option (str * list (str * str) * option str) :=
  do r0 <- expect SHELL_HEAD script;
  do (text, r1) <- parse_str r0;
  do r2 <- expect SHELL_ENV r1;
  do (items, r3) <- parse_dict r2;
  do r4 <- expect SHELL_CWD r3;
  do (cwd, r5) <- parse_opt r4;
  do r6 <- expect SHELL_TAIL r5;
  match r6 with
  | [] => Some (text, items, cwd)
  | _ :: _ => None
  end.

(** The process that runs the program: its environment and its working
    directory. *)
Record process := {
  environ : dict;
  getcwd : str;
}.

(** What [subprocess.run] is called with, once resolved: the program and
    its arguments, the directory the child starts in and the child's
    environment. *)
Record child := {
  child_args : list str;
  child_cwd : str;
  child_env : dict;
}.

Inductive outcome : Type :=
| Spawned (c : child)
| TypeError
| UnicodeEncodeError
| NotRead.

Definition resolve_cwd (p : process) (cwd : option str) : str :=
  match cwd with
  | Some d => d
  | None => getcwd p
  end.

(** Keyword arguments of a call [f(k=v, **mapping)]: a name given both
    ways is a [TypeError] ([None]). *)
Definition call_kwargs (explicit : list (str * str)) (mapping : dict)
  : option (list (str * str)) :=
  if existsb (fun k => existsb (str_eqb k) (keys mapping)) (map fst explicit)
  then None
  else Some (explicit ++ mapping).

Definition exec_run_script (p : process) (script : str) : outcome :=
  match read_run_script script with
  | None => NotRead
  | Some (command, cwd, items) =>
      match call_kwargs [] (dict_of_pairs items) with
      | None => TypeError
      | Some kwargs =>
          Spawned {| child_args := command;
                     child_cwd := resolve_cwd p cwd;
                     child_env := dict_update (environ p) kwargs |}
      end
  end.

Definition HISTFILE : str := lit "HISTFILE".
Definition SHELL : str := lit "SHELL".

(** [Path(d) / "history"] *)
Definition history_path (d : str) : str := d ++ lit "/history".

(** [h.write_text(text)] opens the file for writing and encodes the text
    with the encoding of the locale, taken here to be UTF-8, which has
    no encoding for the surrogates U+D800..U+DFFF (a [--history] byte
    that is not UTF-8 reaches the program as such a code point). *)
Definition utf8_encodable (c : char) : bool :=
  negb ((55296 <=? c) && (c <=? 57343)).

Definition encodable_text (s : str) : bool := forallb utf8_encodable s.

(** The shell program run in the temporary directory [d]: the files it
    leaves and how it ends.  A text that cannot be encoded makes
    [write_text] raise after the file was created, before anything is
    written to it, and nothing after the write is evaluated. *)
Definition exec_shell_script (p : process) (d : str) (script : str)
  : list (str * str) * outcome :=
  match read_shell_script script with
  | None => ([], NotRead)
  | Some (text, items, cwd) =>
      let h := history_path d in
      if encodable_text text then
        let files := [(h, text)] in
        match call_kwargs [(HISTFILE, h)] (dict_of_pairs items) with
        | None => (files, TypeError)
        | Some kwargs =>
            let env := dict_update (environ p) kwargs in
            (files,
             Spawned {| child_args := [get_default SHELL (lit "bash") env];
                        child_cwd := resolve_cwd p cwd;
                        child_env := env |})
        end
      else ([(h, [])], UnicodeEncodeError)
  end.

(** ** runner.py *)

(** [name, _, value = arg.partition("=")] *)
Definition environment_variable (arg : str) : str * str :=
  let '(name, _, value) := partition 61 arg in (name, value).

(** The parsed arguments that [run_script] and the entry points use.
    [--ssh] has no default: it is [None] unless given. *)
Record Namespace := {
  cwd : option str;
  env : list (str * str);
  ssh : option (list str);
}.

(** [if args.ssh:] *)
Definition truthy (l : option (list str)) : bool :=
  match l with
  | Some (_ :: _) => true
  | _ => false
  end.

Definition is_safe (c : char) : bool :=
  ((48 <=? c) && (c <=? 57)) || ((65 <=? c) && (c <=? 90))
  || ((97 <=? c) && (c <=? 122)) || (c =? 95)
  || existsb (N.eqb c) (lit "@%+=:,./-").

(** [shlex.quote] *)
Definition shlex_quote (s : str) : str :=
  match s with
  | [] => lit "''"
  | _ :: _ =>
      if forallb is_safe s then s
      else
        SQUOTE
          :: flat_map
               (fun c => if c =? SQUOTE
                         then [SQUOTE; DQUOTE; SQUOTE; DQUOTE; SQUOTE]
                         else [c]) s
          ++ [SQUOTE]
  end.

(** The command of [run_script]. *)
Definition command (args : Namespace) (script : str) : list str :=
  if truthy (ssh args) then
    [lit "ssh"]
    ++ match ssh args with Some l => l | None => [] end
    ++ [lit "python"; lit "-c"; shlex_quote script]
  else [lit "python"; lit "-c"; script].

(** [subprocess.run(command)]: the child ran and left a return code, or
    it could not be started and [OSError] is raised. *)
Inductive run_result : Type :=
| Completed (returncode : Z)
| OSError (message : str).

(** How the tool's process ends: its exit status and what Python itself
    wrote to standard error. *)
Record termination := {
  status : Z;
  traceback : option str;
}.

(** [sys.exit(n)]: the status a parent sees is the low byte of [n]. *)
Definition sys_exit (n : Z) : termination :=
  {| status := Z.land n 255; traceback := None |}.

(** An exception nobody catches: Python prints the traceback and ends
    with status 1. *)
Definition uncaught (message : str) : termination :=
  {| status := 1; traceback := Some message |}.

(** [sys.exit(subprocess.run(command).returncode)], with
    [subprocess.run] as [spawn]. *)
Definition run_script (spawn : list str -> run_result)
  (args : Namespace) (script : str) : termination :=
  match spawn (command args script) with
  | Completed returncode => sys_exit returncode
  | OSError message => uncaught message
  end.

Section EntryPoints.

Variable uni_printable : char -> bool.
Variable spawn : list str -> run_result.

(** [main_run], after [parse_args]. *)
Definition main_run (args : Namespace) (argv : list str) : termination :=
  run_script spawn args
    (make_run_command uni_printable argv (cwd args)
       (dict_of_pairs (env args))).

(** [main_shell], after [parse_args]. *)
Definition main_shell (args : Namespace) (history : list str)
  : termination :=
  run_script spawn args
    (make_shell_command uni_printable (cwd args)
       (dict_of_pairs (env args)) history).

End EntryPoints.

(** ** The remote side: how the login shell splits the command line

    [ssh] joins the words of the remote command with spaces and the
    remote shell splits the line again.  Only quoting is modelled: an
    unquoted operator, expansion, pattern or newline makes the model
    give up ([None]). *)

Inductive sh_state : Type :=
| Between
| Word
| SingleQuoted
| DoubleQuoted
| WordEscape
| DoubleEscape.

Definition sh_special (c : char) : bool :=
  existsb (N.eqb c) (lit "|&;<>()$`*?[]#~{}!") || (c =? NL).

Fixpoint sh_split (st : sh_state) (cur : str) (s : str)
  : option (list str) :=
  match s with
  | [] =>
      match st with
      | Between => Some []
      | Word => Some [cur]
      | _ => None
      end
  | c :: r =>
      match st with
      | Between | Word =>
          if is_blank c then
            match st with
            | Word =>
                match sh_split Between [] r with
                | Some ws => Some (cur :: ws)
                | None => None
                end
            | _ => sh_split Between [] r
            end
          else if c =? SQUOTE then sh_split SingleQuoted cur r
          else if c =? DQUOTE then sh_split DoubleQuoted cur r
          else if c =? BACKSLASH then sh_split WordEscape cur r
          else if sh_special c then None
          else sh_split Word (cur ++ [c]) r
      | SingleQuoted =>
          if c =? SQUOTE then sh_split Word cur r
          else sh_split SingleQuoted (cur ++ [c]) r
      | DoubleQuoted =>
          if c =? DQUOTE then sh_split Word cur r
          else if c =? BACKSLASH then sh_split DoubleEscape cur r
          else if (c =? 36) || (c =? 96) then None
          else sh_split DoubleQuoted (cur ++ [c]) r
      | WordEscape =>
          if c =? NL then sh_split Word cur r
          else sh_split Word (cur ++ [c]) r
      | DoubleEscape =>
          if c =? NL then sh_split DoubleQuoted cur r
          else if (c =? 36) || (c =? 96) || (c =? DQUOTE) || (c =? BACKSLASH)
          then sh_split DoubleQuoted (cur ++ [c]) r
          else sh_split DoubleQuoted (cur ++ [BACKSLASH; c]) r
      end
  end.

(** The words the remote shell obtains from the remote command. *)
Definition remote_words (remote_command : list str) : option (list str) :=
  sh_split Between [] (join [SPACE] remote_command).

(** ** [--cmd]: [shlex.split]

    [--cmd] has [type=shlex.split]: the lexer in POSIX mode, splitting
    on whitespace only, without comments.  The state is the lexer's
    [state] (blank, inside a word, inside a quote, after a backslash),
    with the token read so far and whether it had a quote.  [None] is
    the [ValueError] of an unclosed quote or a trailing backslash. *)

Inductive shlex_state : Type :=
| ShBlank
| ShWord
| ShQuote (q : char)
| ShEscape (back : option char).

Definition shlex_whitespace (c : char) : bool :=
  (c =? SPACE) || (c =? TAB) || (c =? CR) || (c =? NL).

Definition push_token (token : str) (quoted : bool) (r : option (list str))
  : option (list str) :=
  match r with
  | Some ts =>
      Some (match token with
            | [] => if quoted then [] :: ts else ts
            | _ :: _ => token :: ts
            end)
  | None => None
  end.

Fixpoint shlex_tokens (st : shlex_state) (token : str) (quoted : bool)
  (s : str) : option (list str) :=
  match s with
  | [] =>
      match st with
      | ShBlank => Some []
      | ShWord => push_token token quoted (Some [])
      | ShQuote _ | ShEscape _ => None
      end
  | c :: r =>
      match st with
      | ShBlank =>
          if shlex_whitespace c then shlex_tokens ShBlank [] false r
          else if c =? BACKSLASH then shlex_tokens (ShEscape None) [] false r
          else if is_quote c then shlex_tokens (ShQuote c) [] true r
          else shlex_tokens ShWord [c] false r
      | ShWord =>
          if shlex_whitespace c then
            push_token token quoted (shlex_tokens ShBlank [] false r)
          else if is_quote c then shlex_tokens (ShQuote c) token true r
          else if c =? BACKSLASH then
            shlex_tokens (ShEscape None) token quoted r
          else shlex_tokens ShWord (token ++ [c]) quoted r
      | ShQuote q =>
          if c =? q then shlex_tokens ShWord token quoted r
          else if (c =? BACKSLASH) && (q =? DQUOTE) then
            shlex_tokens (ShEscape (Some q)) token quoted r
          else shlex_tokens (ShQuote q) (token ++ [c]) quoted r
      | ShEscape None => shlex_tokens ShWord (token ++ [c]) quoted r
      | ShEscape (Some q) =>
          if (c =? BACKSLASH) || (c =? q)
          then shlex_tokens (ShQuote q) (token ++ [c]) quoted r
          else shlex_tokens (ShQuote q) (token ++ [BACKSLASH; c]) quoted r
      end
  end.

Definition shlex_split (s : str) : option (list str) :=
  shlex_tokens ShBlank [] false s.

(** The command of [main_run]: [--cmd] is split, [--argv] is taken as
    given. *)
Inductive command_option : Type :=
| Cmd (line : str)
| Argv (words : list str).

Definition argv_of (c : command_option) : option (list str) :=
  match c with
  | Cmd line => shlex_split line
  | Argv words => Some words
  end.

(** ** Notions used in the statements *)

(** A text that starts with a closing delimiter or a separator, or is
    empty: what follows a literal in the generated programs. *)
Definition delimited (rest : str) : bool :=
  match rest with
  | [] => true
  | c :: _ => existsb (N.eqb c) (lit ",:)]}")
  end.

Definition valid_list (l : list str) : bool := forallb valid_str l.

Definition valid_items (d : list (str * str)) : bool :=
  forallb (fun kv => valid_str (fst kv) && valid_str (snd kv)) d.

Definition valid_opt (o : option str) : bool :=
  match o with
  | Some s => valid_str s
  | None => true
  end.

(** A dict has each key once. *)
Fixpoint unique_keys (d : list (str * str)) : bool :=
  match d with
  | [] => true
  | (k, _) :: rest =>
      negb (existsb (str_eqb k) (map fst rest)) && unique_keys rest
  end.

(** The value given with the last occurrence of [k] in a list of
    (name, value) pairs. *)
Fixpoint last_value (k : str) (items : list (str * str)) : option str :=
  match items with
  | [] => None
  | (k', v) :: rest =>
      match last_value k rest with
      | Some v' => Some v'
      | None => if str_eqb k k' then Some v else None
      end
  end.

(** [a] with [b] applied on top: the value in [b] where [b] has the key,
    the value in [a] otherwise. *)
Definition on_top (a b : option str) : option str :=
  match b with
  | Some v => Some v
  | None => a
  end.

(** Every line followed by a newline, in order. *)
Definition each_line_terminated (lines : list str) : str :=
  flat_map (fun l => l ++ [NL]) lines.

(** The Latin-1 part of the [isprintable] table; the code points above
    U+00FF are taken as not printable, which makes [repr] escape them. *)
Definition latin1_printable (c : char) : bool :=
  (161 <=? c) && (c <=? 255) && negb (c =? 173).

(** A process and a temporary directory to evaluate examples in. *)
Definition example_process : process :=
  {| environ := [(lit "PATH", lit "/usr/bin"); (lit "TERM", lit "xterm");
                 (lit "SHELL", lit "/bin/zsh")];
     getcwd := lit "/home/user" |}.

Definition example_tmpdir : str := lit "/tmp/tmpk3v9".

(** Values with quotes, a backslash, a newline, a control character
    and code points outside ASCII. *)
Definition example_argv : list str :=
  [lit "printf"; lit "it's"; [DQUOTE; SQUOTE; BACKSLASH; NL; 7; 233; 8364];
   []; [128512]].

Definition example_env : dict :=
  [(lit "GREETING", DQUOTE :: lit "hello'" ++ [NL; BACKSLASH]);
   (lit "SHELL", lit "/bin/sh")].

Definition example_history : list str :=
  [lit "echo 'hi'"; lit "ls -l"].

(** A word that [shlex.split] takes as it is: not empty, no whitespace,
    no quote, no backslash. *)
Definition plain_word (w : str) : bool :=
  negb (str_eqb w [])
  && forallb (fun c => negb (shlex_whitespace c || is_quote c
                             || (c =? BACKSLASH))) w.

(** The number of newline characters of a text. *)
Definition newlines (s : str) : nat :=
  List.length (filter (N.eqb NL) s).

Definition no_newline (s : str) : bool :=
  forallb (fun c => negb (c =? NL)) s.

(** Comparisons of code points, decided by linear arithmetic. *)
Ltac cmp_to_prop :=
  repeat match goal with
  | H : (_ =? _) = true |- _ => apply N.eqb_eq in H
  | H : (_ =? _) = false |- _ => apply N.eqb_neq in H
  | H : (_ <? _) = true |- _ => apply N.ltb_lt in H
  | H : (_ <? _) = false |- _ => apply N.ltb_ge in H
  | H : (_ <=? _) = true |- _ => apply N.leb_le in H
  | H : (_ <=? _) = false |- _ => apply N.leb_gt in H
  | H : (_ || _) = true |- _ => apply orb_true_iff in H; destruct H
  | H : (_ || _) = false |- _ => apply orb_false_iff in H; destruct H
  | H : (_ && _) = true |- _ => apply andb_true_iff in H; destruct H
  end.

Ltac cmp_decide :=
  repeat match goal with
  | |- context [?a =? ?b] =>
      first [ replace (a =? b) with true
                by (symmetry; apply N.eqb_eq; lia)
            | replace (a =? b) with false
                by (symmetry; apply N.eqb_neq; lia) ]
  | |- context [?a <? ?b] =>
      first [ replace (a <? b) with true
                by (symmetry; apply N.ltb_lt; lia)
            | replace (a <? b) with false
                by (symmetry; apply N.ltb_ge; lia) ]
  | |- context [?a <=? ?b] =>
      first [ replace (a <=? b) with true
                by (symmetry; apply N.leb_le; lia)
            | replace (a <=? b) with false
                by (symmetry; apply N.leb_gt; lia) ]
  end.

(** * Properties *)

(** ** Strings *)

Lemma str_eqb_refl (a : str) : str_eqb a a = true.
Proof.
  induction a as [|x a IH]; simpl; [reflexivity|].
  now rewrite N.eqb_refl.
Qed.

Lemma str_eqb_eq (a b : str) : str_eqb a b = true <-> a = b.
Proof.
  split; [|intros ->; apply str_eqb_refl].
  revert b; induction a as [|x a IH]; intros [|y b]; simpl; try discriminate.
  - reflexivity.
  - intros H. apply andb_true_iff in H as [Hx Hab].
    apply N.eqb_eq in Hx. now rewrite Hx, (IH b Hab).
Qed.

Lemma str_eqb_neq (a b : str) : str_eqb a b = false <-> a <> b.
Proof.
  rewrite <- str_eqb_eq. destruct (str_eqb a b); split; congruence.
Qed.

(** ** Hexadecimal escapes are read back *)

Lemma hexval_hexchar (d : N) : d < 16 -> hexval (hexchar d) = Some d.
Proof.
  intros Hd. unfold hexval, hexchar.
  destruct (d <? 10) eqn:E.
  - apply N.ltb_lt in E.
    replace ((48 <=? 48 + d) && (48 + d <=? 57)) with true.
    + f_equal. lia.
    + symmetry. apply andb_true_iff. split; apply N.leb_le; lia.
  - apply N.ltb_ge in E.
    replace ((48 <=? 87 + d) && (87 + d <=? 57)) with false.
    + replace ((97 <=? 87 + d) && (87 + d <=? 102)) with true.
      * f_equal. lia.
      * symmetry. apply andb_true_iff. split; apply N.leb_le; lia.
    + symmetry. apply andb_false_iff. right. apply N.leb_gt. lia.
Qed.

Lemma hexchar_ge (d : N) : 48 <= hexchar d.
Proof. unfold hexchar. destruct (d <? 10); lia. Qed.

Lemma mod_pow16_succ (c : N) (n : nat) :
  c mod 16 ^ N.of_nat (S n)
  = (c / 16 ^ N.of_nat n) mod 16 * 16 ^ N.of_nat n + c mod 16 ^ N.of_nat n.
Proof.
  rewrite Nat2N.inj_succ, N.pow_succ_r'.
  rewrite (N.mul_comm 16).
  rewrite N.Div0.mod_mul_r. lia.
Qed.

Lemma lex_hexdigits (q : char) (n : nat) :
  forall (v c : N) (rest : str),
    valid_char (v * 16 ^ N.of_nat (S n) + c mod 16 ^ N.of_nat (S n)) = true ->
    lex_body q (HexDigits (S n) v) (hexdigits (S n) c ++ rest)
    = emit (v * 16 ^ N.of_nat (S n) + c mod 16 ^ N.of_nat (S n))
        (lex_body q Plain rest).
Proof.
  induction n as [|n IH]; intros v c rest Hv.
  - cbn [hexdigits app lex_body].
    rewrite hexval_hexchar by (apply N.mod_upper_bound; discriminate).
    change (16 ^ N.of_nat 0) with 1 in *.
    change (16 ^ N.of_nat 1) with 16 in *.
    rewrite N.div_1_r.
    replace (16 * v + c mod 16) with (v * 16 + c mod 16) by lia.
    now rewrite Hv.
  - change (hexdigits (S (S n)) c)
      with (hexchar ((c / 16 ^ N.of_nat (S n)) mod 16) :: hexdigits (S n) c).
    cbn [app lex_body].
    rewrite hexval_hexchar by (apply N.mod_upper_bound; discriminate).
    rewrite (mod_pow16_succ c (S n)) in *.
    replace (v * 16 ^ N.of_nat (S (S n))
             + ((c / 16 ^ N.of_nat (S n)) mod 16 * 16 ^ N.of_nat (S n)
                + c mod 16 ^ N.of_nat (S n)))
      with ((16 * v + (c / 16 ^ N.of_nat (S n)) mod 16) * 16 ^ N.of_nat (S n)
            + c mod 16 ^ N.of_nat (S n)) in *.
    + now apply IH.
    + rewrite (Nat2N.inj_succ (S n)), N.pow_succ_r'. lia.
Qed.

Corollary lex_hex_escape (q : char) (n : nat) (c : N) (rest : str) :
  c < 16 ^ N.of_nat (S n) ->
  valid_char c = true ->
  lex_body q (HexDigits (S n) 0) (hexdigits (S n) c ++ rest)
  = emit c (lex_body q Plain rest).
Proof.
  intros Hc Hv.
  assert (E : 0 * 16 ^ N.of_nat (S n) + c mod 16 ^ N.of_nat (S n) = c)
    by (rewrite N.mod_small by exact Hc; lia).
  rewrite lex_hexdigits; rewrite E; [reflexivity | exact Hv].
Qed.

Lemma is_quote_cases (q : char) :
  is_quote q = true -> q = SQUOTE \/ q = DQUOTE.
Proof.
  unfold is_quote. intros H. cmp_to_prop; auto.
Qed.

Section ReprProps.

Variable uni_printable : char -> bool.

Lemma lex_repr_char (q c : char) (rest : str) :
  is_quote q = true ->
  valid_char c = true ->
  lex_body q Plain (repr_char uni_printable q c ++ rest)
  = emit c (lex_body q Plain rest).
Proof.
  intros Hq Hv. unfold valid_char in Hv.
  apply is_quote_cases in Hq.
  unfold repr_char, SQUOTE, DQUOTE, BACKSLASH, TAB, NL, CR, SPACE in *.
  destruct ((c =? q) || (c =? 92)) eqn:E1.
  { cbn [app lex_body]. unfold SQUOTE, DQUOTE, BACKSLASH, NL.
    destruct Hq; subst q; cmp_to_prop; subst c; reflexivity. }
  destruct (c =? 9) eqn:E2.
  { cmp_to_prop. subst c. destruct Hq; subst q; reflexivity. }
  destruct (c =? 10) eqn:E3.
  { cmp_to_prop. subst c. destruct Hq; subst q; reflexivity. }
  destruct (c =? 13) eqn:E4.
  { cmp_to_prop. subst c. destruct Hq; subst q; reflexivity. }
  assert (Hx : forall k n,
    (k = 120 /\ n = 1%nat) \/ (k = 117 /\ n = 3%nat)
    \/ (k = 85 /\ n = 7%nat) ->
    c < 16 ^ N.of_nat (S n) ->
    lex_body q Plain (92 :: k :: hexdigits (S n) c ++ rest)
    = emit c (lex_body q Plain rest)).
  { intros k n Hk Hn.
    transitivity
      (lex_body q (HexDigits (S n) 0) (hexdigits (S n) c ++ rest)).
    - destruct Hq; subst q;
        destruct Hk as [[-> ->]|[[-> ->]|[-> ->]]]; reflexivity.
    - apply lex_hex_escape; [exact Hn|exact Hv]. }
  destruct ((c <? 32) || (c =? 127)) eqn:E5.
  { apply (Hx 120 1%nat); [tauto|]. change (16 ^ N.of_nat 2) with 256.
    cmp_to_prop; lia. }
  assert (Hplain : lex_body q Plain ([c] ++ rest)
                   = emit c (lex_body q Plain rest)).
  { cbn [app lex_body]. unfold BACKSLASH, NL. cmp_to_prop.
    destruct Hq; subst q; unfold SQUOTE, DQUOTE in *; cmp_decide;
      reflexivity. }
  destruct (c <? 127) eqn:E6; [exact Hplain|].
  destruct (isprintable uni_printable c) eqn:E7; [exact Hplain|].
  destruct (c <=? 255) eqn:E8.
  { apply (Hx 120 1%nat); [tauto|]. change (16 ^ N.of_nat 2) with 256.
    cmp_to_prop; lia. }
  destruct (c <=? 65535) eqn:E9.
  { apply (Hx 117 3%nat); [tauto|]. change (16 ^ N.of_nat 4) with 65536.
    cmp_to_prop; lia. }
  apply (Hx 85 7%nat); [tauto|]. change (16 ^ N.of_nat 8) with 4294967296.
  cmp_to_prop; lia.
Qed.

Lemma repr_quote_is_quote (s : str) : is_quote (repr_quote s) = true.
Proof.
  unfold repr_quote.
  destruct (contains SQUOTE s && negb (contains DQUOTE s)); reflexivity.
Qed.

Lemma lex_repr_body (q : char) (s rest : str) :
  is_quote q = true ->
  valid_str s = true ->
  lex_body q Plain (repr_body uni_printable q s ++ q :: rest)
  = Some (s, rest).
Proof.
  intros Hq. induction s as [|c s IH]; intros Hv.
  - cbn [repr_body flat_map app lex_body]. now rewrite N.eqb_refl.
  - cbn [valid_str forallb] in Hv.
    apply andb_true_iff in Hv as [Hc Hs].
    cbn [repr_body flat_map]. rewrite <- app_assoc.
    rewrite lex_repr_char by assumption.
    fold (repr_body uni_printable q s). now rewrite (IH Hs).
Qed.

(** The first character of an escaped character is never the quote. *)
Lemma repr_char_head (q c : char) :
  is_quote q = true ->
  exists h t, repr_char uni_printable q c = h :: t /\ h <> q.
Proof.
  intros Hq. apply is_quote_cases in Hq.
  unfold repr_char, SQUOTE, DQUOTE, BACKSLASH, TAB, NL, CR, SPACE in *.
  assert (Hb : (92 : N) <> q) by (destruct Hq; subst q; discriminate).
  repeat match goal with
  | |- context [if ?b then _ else _] => destruct b eqn:?
  end; try (eexists; eexists; split; [reflexivity|exact Hb]).
  all: exists c, []; split; [reflexivity|]; cmp_to_prop; congruence.
Qed.

Theorem parse_str_repr (s rest : str) :
  valid_str s = true ->
  delimited rest = true ->
  parse_str (repr_str uni_printable s ++ rest) = Some (s, rest).
Proof.
  intros Hv Hd. unfold repr_str.
  pose proof (repr_quote_is_quote s) as Hq.
  set (q := repr_quote s) in *.
  cbn [app parse_str]. rewrite Hq. rewrite <- app_assoc. cbn [app].
  assert (Hlex := lex_repr_body q s rest Hq Hv).
  destruct s as [|c s].
  - cbn [repr_body flat_map app] in *.
    destruct rest as [|r rest]; [exact Hlex|].
    replace (r =? q) with false; [now rewrite andb_false_r|].
    symmetry. apply N.eqb_neq. intros ->.
    apply is_quote_cases in Hq. cbn [delimited] in Hd.
    destruct Hq as [-> | ->]; discriminate.
  - cbn [repr_body flat_map] in *.
    destruct (repr_char_head q c Hq) as (h & t & Eh & Hh).
    rewrite Eh in *. rewrite <- app_assoc in *. cbn [app] in *.
    apply N.eqb_neq in Hh.
    destruct (t ++ flat_map (repr_char uni_printable q) s ++ q :: rest);
      [exact Hlex|].
    now rewrite Hh.
Qed.

(** ** List and dict displays are read back *)

Lemma skip_blanks_quote (q : char) (t : str) :
  is_quote q = true -> skip_blanks (q :: t) = q :: t.
Proof.
  intros Hq. apply is_quote_cases in Hq. destruct Hq; subst q; reflexivity.
Qed.

Lemma expect_quote_none (q c : char) (t : str) :
  is_quote q = true -> is_quote c = false -> expect [c] (q :: t) = None.
Proof.
  intros Hq Hc. cbn [expect].
  replace (c =? q) with false; [reflexivity|].
  symmetry. apply N.eqb_neq. intros ->. congruence.
Qed.

Lemma punct_repr_none (c : char) (s t : str) :
  is_quote c = false -> punct c (repr_str uni_printable s ++ t) = None.
Proof.
  intros Hc. unfold punct, repr_str. cbn [app].
  rewrite skip_blanks_quote by apply repr_quote_is_quote.
  apply expect_quote_none; [apply repr_quote_is_quote|exact Hc].
Qed.

Lemma skip_blanks_repr (s t : str) :
  skip_blanks (repr_str uni_printable s ++ t)
  = repr_str uni_printable s ++ t.
Proof.
  unfold repr_str. cbn [app].
  apply skip_blanks_quote, repr_quote_is_quote.
Qed.

Lemma join_cons_cons (sep a b : str) (l : list str) :
  join sep (a :: b :: l) = a ++ sep ++ join sep (b :: l).
Proof. reflexivity. Qed.

Lemma join_repr_head (x : str) (l : list str) :
  exists t,
    join (lit ", ") (map (repr_str uni_printable) (x :: l))
    = repr_str uni_printable x ++ t.
Proof.
  destruct l as [|y l].
  - exists []. cbn [map join]. now rewrite app_nil_r.
  - eexists. cbn [map]. rewrite join_cons_cons. reflexivity.
Qed.

Lemma parse_list_items_repr (l : list str) :
  forall (x : str) (fuel : nat) (s rest : str),
    valid_list (x :: l) = true ->
    delimited rest = true ->
    (List.length (x :: l) <= fuel)%nat ->
    skip_blanks s
    = join (lit ", ") (map (repr_str uni_printable) (x :: l))
        ++ RBRACKET :: rest ->
    parse_list_items fuel s = Some (x :: l, rest).
Proof.
  induction l as [|y l IH]; intros x fuel s rest Hv Hd Hf Hs;
    (destruct fuel as [|fuel]; [cbn in Hf; lia|]);
    cbn [valid_list forallb] in Hv; apply andb_true_iff in Hv as [Hx Hl];
    cbn [parse_list_items]; rewrite Hs.
  - cbn [map join].
    rewrite parse_str_repr by (assumption || reflexivity).
    reflexivity.
  - cbn [map]. rewrite join_cons_cons, <- !app_assoc.
    change (lit ", " ++ ?t) with (COMMA :: SPACE :: t).
    rewrite parse_str_repr by (assumption || reflexivity).
    change (punct RBRACKET (COMMA :: ?t)) with (@None str).
    change (punct COMMA (COMMA :: ?t)) with (Some t).
    cbv beta iota.
    change (punct RBRACKET (SPACE :: ?t)) with (punct RBRACKET t).
    destruct (join_repr_head y l) as (t & Et).
    change (map (repr_str uni_printable) (y :: l))
      with (repr_str uni_printable y :: map (repr_str uni_printable) l) in Et.
    rewrite Et at 1. rewrite <- app_assoc.
    rewrite punct_repr_none by reflexivity.
    rewrite (IH y fuel _ rest); [reflexivity|exact Hl|exact Hd| |].
    + cbn [List.length] in *. lia.
    + change (skip_blanks (SPACE :: ?u)) with (skip_blanks u).
      cbn [map]. rewrite Et, <- app_assoc. apply skip_blanks_repr.
Qed.

Lemma length_join_repr (l : list str) (rest : str) :
  (List.length l
   <= List.length (join (lit ", ") (map (repr_str uni_printable) l)
                     ++ rest))%nat.
Proof.
  induction l as [|x l IH]; [cbn; lia|].
  destruct l as [|y l].
  - cbn [map join]. unfold repr_str. cbn [app List.length]. lia.
  - cbn [map] in *. rewrite join_cons_cons, <- !app_assoc.
    unfold repr_str at 1. cbn [app List.length].
    rewrite !length_app. cbn [List.length] in *.
    rewrite length_app in IH. lia.
Qed.

Theorem parse_list_repr (l : list str) (rest : str) :
  valid_list l = true ->
  delimited rest = true ->
  parse_list (repr_list uni_printable l ++ rest) = Some (l, rest).
Proof.
  intros Hv Hd. unfold repr_list, parse_list.
  cbn [app expect]. rewrite N.eqb_refl. rewrite <- app_assoc. cbn [app].
  destruct l as [|x l].
  - reflexivity.
  - destruct (join_repr_head x l) as (t & Et).
    rewrite Et at 1. rewrite <- app_assoc.
    rewrite punct_repr_none by reflexivity.
    apply parse_list_items_repr; try assumption.
    + apply length_join_repr.
    + rewrite Et at 1. rewrite <- app_assoc.
      rewrite skip_blanks_repr. rewrite app_assoc, <- Et. reflexivity.
Qed.

Lemma join_item_head (k v : str) (d : list (str * str)) :
  exists t,
    join (lit ", ") (map (repr_item uni_printable) ((k, v) :: d))
    = repr_str uni_printable k ++ t.
Proof.
  destruct d as [|kv d]; cbn [map]; [|rewrite join_cons_cons];
    unfold repr_item at 1; cbn [fst snd join];
    rewrite <- ?app_assoc; eexists; reflexivity.
Qed.

Lemma parse_dict_items_repr (d : list (str * str)) :
  forall (kv : str * str) (fuel : nat) (s rest : str),
    valid_items (kv :: d) = true ->
    delimited rest = true ->
    (List.length (kv :: d) <= fuel)%nat ->
    skip_blanks s
    = join (lit ", ") (map (repr_item uni_printable) (kv :: d))
        ++ RBRACE :: rest ->
    parse_dict_items fuel s = Some (kv :: d, rest).
Proof.
  induction d as [|kv' d IH]; intros [k v] fuel s rest Hv Hd Hf Hs;
    (destruct fuel as [|fuel]; [cbn in Hf; lia|]);
    unfold valid_items in Hv; cbn [forallb fst snd] in Hv;
    apply andb_true_iff in Hv as [Hkv Hl];
    apply andb_true_iff in Hkv as [Hk Hv];
    cbn [parse_dict_items]; rewrite Hs; cbn [map].
  - cbn [join]. unfold repr_item. cbn [fst snd]. rewrite <- !app_assoc.
    change (lit ": " ++ ?t) with (COLON :: SPACE :: t).
    rewrite parse_str_repr by (assumption || reflexivity).
    change (punct COLON (COLON :: ?t)) with (Some t). cbv beta iota.
    change (skip_blanks (SPACE :: ?u)) with (skip_blanks u).
    rewrite skip_blanks_repr.
    rewrite parse_str_repr by (assumption || reflexivity).
    reflexivity.
  - rewrite join_cons_cons. unfold repr_item at 1. cbn [fst snd].
    rewrite <- !app_assoc.
    change (lit ": " ++ ?t) with (COLON :: SPACE :: t).
    change (lit ", " ++ ?t) with (COMMA :: SPACE :: t).
    rewrite parse_str_repr by (assumption || reflexivity).
    change (punct COLON (COLON :: ?t)) with (Some t). cbv beta iota.
    change (skip_blanks (SPACE :: ?u)) with (skip_blanks u).
    rewrite skip_blanks_repr.
    rewrite parse_str_repr by (assumption || reflexivity).
    change (punct RBRACE (COMMA :: ?t)) with (@None str).
    change (punct COMMA (COMMA :: ?t)) with (Some t).
    cbv beta iota.
    change (punct RBRACE (SPACE :: ?t)) with (punct RBRACE t).
    destruct kv' as [k' v'].
    destruct (join_item_head k' v' d) as (t & Et).
    cbn [map] in Et. rewrite Et at 1. rewrite <- app_assoc.
    rewrite punct_repr_none by reflexivity.
    rewrite (IH (k', v') fuel _ rest); [reflexivity|exact Hl|exact Hd| |].
    + cbn [List.length] in *. lia.
    + change (skip_blanks (SPACE :: ?u)) with (skip_blanks u).
      cbn [map]. rewrite Et, <- app_assoc. apply skip_blanks_repr.
Qed.

Lemma length_join_item (d : list (str * str)) (rest : str) :
  (List.length d
   <= List.length (join (lit ", ") (map (repr_item uni_printable) d)
                     ++ rest))%nat.
Proof.
  induction d as [|x d IH]; [cbn; lia|].
  destruct d as [|y d].
  - cbn [map join]. unfold repr_item, repr_str.
    cbn [app List.length]. lia.
  - cbn [map] in *. rewrite join_cons_cons, <- !app_assoc.
    unfold repr_item at 1. unfold repr_str at 1. cbn [app List.length].
    rewrite !length_app. cbn [List.length] in *.
    rewrite length_app in IH. lia.
Qed.

Theorem parse_dict_repr (d : list (str * str)) (rest : str) :
  valid_items d = true ->
  delimited rest = true ->
  parse_dict (repr_dict uni_printable d ++ rest) = Some (d, rest).
Proof.
  intros Hv Hd. unfold repr_dict, parse_dict.
  cbn [app expect]. rewrite N.eqb_refl. rewrite <- app_assoc. cbn [app].
  destruct d as [|[k v] d].
  - reflexivity.
  - destruct (join_item_head k v d) as (t & Et).
    rewrite Et at 1. rewrite <- app_assoc.
    rewrite punct_repr_none by reflexivity.
    apply parse_dict_items_repr; try assumption.
    + apply length_join_item.
    + rewrite Et at 1. rewrite <- app_assoc.
      rewrite skip_blanks_repr. rewrite app_assoc, <- Et. reflexivity.
Qed.

Theorem parse_opt_repr (o : option str) (rest : str) :
  valid_opt o = true ->
  delimited rest = true ->
  parse_opt (repr_opt uni_printable o ++ rest) = Some (o, rest).
Proof.
  intros Hv Hd. destruct o as [s|]; unfold parse_opt; cbn [repr_opt].
  - replace (expect (lit "None") (repr_str uni_printable s ++ rest))
      with (@None str).
    + now rewrite parse_str_repr.
    + unfold repr_str. cbn [app].
      pose proof (repr_quote_is_quote s) as Hq.
      apply is_quote_cases in Hq. destruct Hq as [-> | ->]; reflexivity.
  - change (expect (lit "None") (lit "None" ++ rest)) with (Some rest).
    destruct rest as [|c rest]; [reflexivity|].
    replace (is_ident_char c) with false; [reflexivity|].
    cbn [delimited existsb lit map list_ascii_of_string] in Hd.
    unfold is_ident_char. symmetry.
    repeat (apply orb_true_iff in Hd; destruct Hd as [Hd|Hd]);
      try discriminate; apply N.eqb_eq in Hd; subst c; reflexivity.
Qed.

(** ** [repr] never produces a newline *)

Lemma no_newline_app (a b : str) :
  no_newline (a ++ b) = no_newline a && no_newline b.
Proof. apply forallb_app. Qed.

Lemma no_newline_hexdigits (n : nat) (c : N) :
  no_newline (hexdigits n c) = true.
Proof.
  induction n as [|n IH]; [reflexivity|].
  cbn [hexdigits no_newline forallb]. fold (no_newline (hexdigits n c)).
  rewrite IH, andb_true_r. apply negb_true_iff, N.eqb_neq.
  pose proof (hexchar_ge ((c / 16 ^ N.of_nat n) mod 16)). unfold NL. lia.
Qed.

Lemma no_newline_repr_char (q c : char) :
  is_quote q = true -> no_newline (repr_char uni_printable q c) = true.
Proof.
  intros Hq. apply is_quote_cases in Hq.
  unfold repr_char, SQUOTE, DQUOTE, BACKSLASH, TAB, NL, CR, SPACE in *.
  repeat match goal with
  | |- context [if ?b then _ else _] => destruct b eqn:?
  end;
    try reflexivity;
    try (change (no_newline (92 :: ?k :: ?t)) with (no_newline t);
         apply no_newline_hexdigits);
    cbn [no_newline forallb]; unfold NL; cmp_to_prop;
    rewrite ?andb_true_r; try subst c;
    try (destruct Hq; subst q; reflexivity);
    apply negb_true_iff, N.eqb_neq; lia.
Qed.

Lemma no_newline_repr_body (q : char) (s : str) :
  is_quote q = true -> no_newline (repr_body uni_printable q s) = true.
Proof.
  intros Hq. unfold repr_body. induction s as [|c s IH]; [reflexivity|].
  cbn [flat_map]. rewrite no_newline_app.
  now rewrite no_newline_repr_char, IH.
Qed.

Lemma no_newline_repr_str (s : str) :
  no_newline (repr_str uni_printable s) = true.
Proof.
  unfold repr_str. pose proof (repr_quote_is_quote s) as Hq.
  set (q := repr_quote s) in *.
  assert (Hn : negb (q =? NL) = true)
    by (apply is_quote_cases in Hq; destruct Hq as [-> | ->]; reflexivity).
  change (no_newline (q :: ?t)) with (negb (q =? NL) && no_newline t).
  rewrite Hn, no_newline_app, no_newline_repr_body by exact Hq.
  cbn [andb no_newline forallb]. now rewrite Hn.
Qed.

Lemma no_newline_join (sep : str) (l : list str) :
  no_newline sep = true ->
  forallb no_newline l = true ->
  no_newline (join sep l) = true.
Proof.
  intros Hsep. induction l as [|x l IH]; [reflexivity|].
  cbn [forallb]. intros H. apply andb_true_iff in H as [Hx Hl].
  destruct l as [|y l]; [exact Hx|].
  rewrite join_cons_cons, !no_newline_app, Hx, Hsep. now apply IH.
Qed.

Lemma no_newline_repr_list (l : list str) :
  no_newline (repr_list uni_printable l) = true.
Proof.
  unfold repr_list.
  change (no_newline (91 :: ?t)) with (no_newline t).
  rewrite no_newline_app, andb_true_r.
  apply no_newline_join; [reflexivity|].
  induction l as [|x l IH]; [reflexivity|].
  cbn [map forallb]. now rewrite no_newline_repr_str.
Qed.

Lemma no_newline_repr_dict (d : list (str * str)) :
  no_newline (repr_dict uni_printable d) = true.
Proof.
  unfold repr_dict.
  change (no_newline (123 :: ?t)) with (no_newline t).
  rewrite no_newline_app, andb_true_r.
  apply no_newline_join; [reflexivity|].
  induction d as [|x d IH]; [reflexivity|].
  cbn [map forallb]. rewrite IH, andb_true_r.
  unfold repr_item. now rewrite !no_newline_app, !no_newline_repr_str.
Qed.

Lemma no_newline_repr_opt (o : option str) :
  no_newline (repr_opt uni_printable o) = true.
Proof.
  destruct o; [apply no_newline_repr_str|reflexivity].
Qed.

End ReprProps.

(** ** [dedent] and [strip] on the two templates *)

Lemma split_nl_app (a b cur : str) :
  no_newline a = true -> split_nl cur (a ++ b) = split_nl (cur ++ a) b.
Proof.
  revert cur. induction a as [|c a IH]; intros cur H.
  - now rewrite app_nil_r.
  - cbn [no_newline forallb] in H. apply andb_true_iff in H as [Hc Ha].
    apply negb_true_iff in Hc. cbn [app split_nl]. rewrite Hc.
    rewrite IH by exact Ha. now rewrite <- app_assoc.
Qed.

Lemma split_nl_join (ls : list str) :
  forall (l cur : str),
    forallb no_newline (l :: ls) = true ->
    split_nl cur (join [NL] (l :: ls)) = (cur ++ l) :: ls.
Proof.
  induction ls as [|l' ls IH]; intros l cur H;
    cbn [forallb] in H; apply andb_true_iff in H as [Hl Hls].
  - cbn [join]. rewrite <- (app_nil_r l) at 1.
    now rewrite split_nl_app.
  - change (join [NL] (l :: l' :: ls))
      with (l ++ [NL] ++ join [NL] (l' :: ls)).
    rewrite split_nl_app by exact Hl. cbn [app split_nl].
    change (NL =? NL) with true. cbv iota.
    now rewrite IH.
Qed.

Lemma lstrip_app (a b : str) :
  lstrip a <> [] -> lstrip (a ++ b) = lstrip a ++ b.
Proof.
  induction a as [|c a IH]; [easy|].
  cbn [lstrip app]. destruct (isspace c); [exact IH|reflexivity].
Qed.

Lemma rstrip_app (a b : str) :
  rstrip b <> [] -> rstrip (a ++ b) = a ++ rstrip b.
Proof.
  unfold rstrip. intros H. rewrite rev_app_distr.
  rewrite lstrip_app.
  - now rewrite rev_app_distr, rev_involutive.
  - intros E. apply H. now rewrite E.
Qed.

Section Templates.

Variable uni_printable : char -> bool.

Lemma run_fstring_lines
  (argv : list str) (cwd : option str) (env : list (str * str)) :
  run_fstring uni_printable argv cwd env
  = join [NL]
      [ [];
        lit "            import os, sys, subprocess";
        lit "            sys.exit(";
        lit "                subprocess.run(";
        lit "                    " ++ repr_list uni_printable argv ++ lit ",";
        lit "                    cwd=" ++ repr_opt uni_printable cwd ++ lit ",";
        lit "                    env=dict(os.environ, **"
          ++ repr_dict uni_printable env ++ lit "),";
        lit "                ).returncode";
        lit "            )";
        lit "        " ].
Proof.
  unfold run_fstring. cbn [join]. rewrite <- !app_assoc. reflexivity.
Qed.

Lemma dedent_run_fstring
  (argv : list str) (cwd : option str) (env : list (str * str)) :
  dedent (run_fstring uni_printable argv cwd env)
  = (NL :: RUN_HEAD ++ repr_list uni_printable argv
        ++ RUN_CWD ++ repr_opt uni_printable cwd
        ++ RUN_ENV ++ repr_dict uni_printable env)
    ++ RUN_TAIL ++ [NL].
Proof.
  rewrite run_fstring_lines. unfold dedent.
  rewrite split_nl_join.
  2:{ cbn [forallb].
      rewrite !no_newline_app, no_newline_repr_list, no_newline_repr_opt,
        no_newline_repr_dict.
      reflexivity. }
  unfold repr_list.
  generalize (join (lit ", ") (map (repr_str uni_printable) argv) ++ [93]).
  generalize (repr_opt uni_printable cwd).
  generalize (repr_dict uni_printable env).
  intros C B A. cbn. rewrite <- !app_assoc. cbn.
  rewrite <- ?app_assoc. cbn. rewrite <- ?app_assoc. reflexivity.
Qed.

(** The text of a run program: the f-string without its margin and
    without the blank first and last lines. *)
Theorem make_run_command_text
  (argv : list str) (cwd : option str) (env : list (str * str)) :
  make_run_command uni_printable argv cwd env
  = RUN_HEAD ++ repr_list uni_printable argv
      ++ RUN_CWD ++ repr_opt uni_printable cwd
      ++ RUN_ENV ++ repr_dict uni_printable env ++ RUN_TAIL.
Proof.
  unfold make_run_command, strip. rewrite dedent_run_fstring.
  rewrite rstrip_app by (vm_compute; discriminate).
  change (rstrip (RUN_TAIL ++ [NL])) with RUN_TAIL.
  rewrite <- app_comm_cons.
  change (lstrip (NL :: ?t)) with (lstrip t).
  rewrite <- !app_assoc.
  reflexivity.
Qed.

Lemma shell_fstring_lines
  (cwd : option str) (env : list (str * str)) (history : list str) :
  shell_fstring uni_printable cwd env history
  = join [NL]
      [ [];
        lit "            import os, sys, subprocess, tempfile";
        lit "            from pathlib import Path";
        lit "            with tempfile.TemporaryDirectory() as d:";
        lit "                h = Path(d) / " ++ dq (lit "history");
        lit "                h.write_text("
          ++ repr_str uni_printable (history_lines history) ++ lit ")";
        lit "                env = dict(os.environ, HISTFILE=h, **"
          ++ repr_dict uni_printable env ++ lit ")";
        lit "                sys.exit(";
        lit "                    subprocess.run(";
        lit "                        env.get(" ++ dq (lit "SHELL") ++ lit ", "
          ++ dq (lit "bash") ++ lit "),";
        lit "                        env=env,";
        lit "                        cwd=" ++ repr_opt uni_printable cwd
          ++ lit ",";
        lit "                    ).returncode";
        lit "                )";
        lit "        " ].
Proof.
  unfold shell_fstring. cbn [join]. rewrite <- !app_assoc. reflexivity.
Qed.

Lemma dedent_shell_fstring
  (cwd : option str) (env : list (str * str)) (history : list str) :
  dedent (shell_fstring uni_printable cwd env history)
  = (NL :: SHELL_HEAD ++ repr_str uni_printable (history_lines history)
        ++ SHELL_ENV ++ repr_dict uni_printable env
        ++ SHELL_CWD ++ repr_opt uni_printable cwd)
    ++ SHELL_TAIL ++ [NL].
Proof.
  rewrite shell_fstring_lines. unfold dedent.
  rewrite split_nl_join.
  2:{ cbn [forallb].
      rewrite !no_newline_app, no_newline_repr_str, no_newline_repr_opt,
        no_newline_repr_dict.
      reflexivity. }
  generalize (repr_str uni_printable (history_lines history)).
  generalize (repr_opt uni_printable cwd).
  generalize (repr_dict uni_printable env).
  intros C B A. cbn. rewrite <- !app_assoc. cbn.
  rewrite <- ?app_assoc. cbn. rewrite <- ?app_assoc. reflexivity.
Qed.

(** The text of a shell program. *)
Theorem make_shell_command_text
  (cwd : option str) (env : list (str * str)) (history : list str) :
  make_shell_command uni_printable cwd env history
  = SHELL_HEAD ++ repr_str uni_printable (history_lines history)
      ++ SHELL_ENV ++ repr_dict uni_printable env
      ++ SHELL_CWD ++ repr_opt uni_printable cwd ++ SHELL_TAIL.
Proof.
  unfold make_shell_command, strip. rewrite dedent_shell_fstring.
  rewrite rstrip_app by (vm_compute; discriminate).
  change (rstrip (SHELL_TAIL ++ [NL])) with SHELL_TAIL.
  rewrite <- app_comm_cons.
  change (lstrip (NL :: ?t)) with (lstrip t).
  rewrite <- !app_assoc.
  reflexivity.
Qed.

End Templates.

(** ** Dicts *)

Lemma existsb_str_eqb (k : str) (l : list str) :
  existsb (str_eqb k) l = true <-> In k l.
Proof.
  rewrite existsb_exists. split.
  - intros (x & Hx & E). apply str_eqb_eq in E. now subst.
  - intros H. exists k. split; [exact H|apply str_eqb_refl].
Qed.

Lemma dict_get_none (k : str) (d : dict) :
  dict_get k d = None <-> existsb (str_eqb k) (keys d) = false.
Proof.
  induction d as [|[k' v] d IH]; cbn [dict_get keys map existsb fst].
  - tauto.
  - destruct (str_eqb k k'); cbn [orb]; [split; discriminate|exact IH].
Qed.

Lemma dict_get_app (k : str) (a b : dict) :
  dict_get k (a ++ b) = on_top (dict_get k b) (dict_get k a).
Proof.
  induction a as [|[k' v] a IH]; cbn [app dict_get].
  - now destruct (dict_get k b).
  - destruct (str_eqb k k'); [reflexivity|exact IH].
Qed.

Lemma dict_get_set (k k' v : str) (d : dict) :
  dict_get k (dict_set k' v d)
  = if str_eqb k k' then Some v else dict_get k d.
Proof.
  induction d as [|[k0 v0] d IH]; cbn [dict_set dict_get].
  - reflexivity.
  - destruct (str_eqb k' k0) eqn:E0; cbn [dict_get].
    + apply str_eqb_eq in E0. subst k0.
      destruct (str_eqb k k'); reflexivity.
    + destruct (str_eqb k k0) eqn:E1; [|exact IH].
      apply str_eqb_eq in E1. subst k0.
      destruct (str_eqb k k') eqn:E2; [|reflexivity].
      apply str_eqb_eq in E2. subst k'. now rewrite str_eqb_refl in E0.
Qed.

Lemma keys_dict_set (k v : str) (d : dict) :
  keys (dict_set k v d)
  = if existsb (str_eqb k) (keys d) then keys d else keys d ++ [k].
Proof.
  induction d as [|[k0 v0] d IH]; cbn [dict_set keys map existsb fst].
  - reflexivity.
  - destruct (str_eqb k k0); cbn [orb map fst]; [reflexivity|].
    fold (keys (dict_set k v d)). fold (keys d). rewrite IH.
    now destruct (existsb (str_eqb k) (keys d)).
Qed.

Lemma dict_set_fresh (k v : str) (d : dict) :
  dict_get k d = None -> dict_set k v d = d ++ [(k, v)].
Proof.
  induction d as [|[k0 v0] d IH]; cbn [dict_set dict_get app].
  - reflexivity.
  - destruct (str_eqb k k0); [discriminate|].
    intros H. now rewrite IH.
Qed.

(** Lookup after [update]: the last value given for the key, the old
    value otherwise. *)
Lemma dict_get_update (k : str) (items : list (str * str)) :
  forall d : dict,
    dict_get k (dict_update d items)
    = on_top (dict_get k d) (last_value k items).
Proof.
  unfold dict_update.
  induction items as [|[k' v] items IH]; intros d;
    cbn [fold_left last_value fst snd].
  - reflexivity.
  - rewrite IH, dict_get_set.
    destruct (last_value k items); [reflexivity|].
    now destruct (str_eqb k k').
Qed.

Lemma last_value_unique (k : str) (d : list (str * str)) :
  unique_keys d = true -> last_value k d = dict_get k d.
Proof.
  induction d as [|[k' v] d IH]; cbn [unique_keys last_value dict_get].
  - reflexivity.
  - intros H. apply andb_true_iff in H as [Hk Hd].
    rewrite (IH Hd). apply negb_true_iff in Hk.
    destruct (str_eqb k k') eqn:E.
    + apply str_eqb_eq in E. subst k'.
      apply dict_get_none in Hk. now rewrite Hk.
    + now destruct (dict_get k d).
Qed.

Lemma dict_update_fresh (items : list (str * str)) :
  forall d : dict,
    unique_keys (d ++ items) = true ->
    dict_update d items = d ++ items.
Proof.
  unfold dict_update.
  induction items as [|[k v] items IH]; intros d H; cbn [fold_left fst snd].
  - now rewrite app_nil_r.
  - assert (E : d ++ (k, v) :: items = (d ++ [(k, v)]) ++ items)
      by now rewrite <- app_assoc.
    rewrite E in *.
    assert (Hk : dict_get k d = None).
    { clear IH E. induction d as [|[k0 v0] d IHd]; [reflexivity|].
      cbn [app unique_keys] in H. apply andb_true_iff in H as [H0 Hd].
      cbn [dict_get]. destruct (str_eqb k k0) eqn:E0.
      - apply str_eqb_eq in E0. subst k0. apply negb_true_iff in H0.
        rewrite !map_app, !existsb_app in H0. cbn [map existsb fst] in H0.
        rewrite str_eqb_refl in H0. cbn in H0.
        now rewrite orb_true_r in H0.
      - now apply IHd. }
    rewrite dict_set_fresh by exact Hk. now apply IH.
Qed.

(** A dict is the dict of its own items. *)
Lemma dict_of_pairs_unique (d : dict) :
  unique_keys d = true -> dict_of_pairs d = d.
Proof.
  intros H. unfold dict_of_pairs. now rewrite dict_update_fresh.
Qed.

(** ** The generated programs are read back *)

Lemma expect_app (p r : str) : expect p (p ++ r) = Some r.
Proof.
  induction p as [|c p IH]; [reflexivity|].
  cbn [app expect]. now rewrite N.eqb_refl.
Qed.

Lemma valid_str_app (a b : str) :
  valid_str (a ++ b) = valid_str a && valid_str b.
Proof. apply forallb_app. Qed.

Lemma valid_history_lines (history : list str) :
  valid_list history = true -> valid_str (history_lines history) = true.
Proof.
  intros H. unfold history_lines. rewrite valid_str_app, andb_true_r.
  induction history as [|l history IH]; [reflexivity|].
  cbn [valid_list forallb] in H. apply andb_true_iff in H as [Hl Hh].
  destruct history as [|l' history]; [exact Hl|].
  change (join [NL] (l :: l' :: history))
    with (l ++ [NL] ++ join [NL] (l' :: history)).
  rewrite !valid_str_app, Hl. now apply IH.
Qed.

Section Programs.

Variable uni_printable : char -> bool.

Lemma read_run_script_make
  (argv : list str) (cwd : option str) (env : list (str * str)) :
  valid_list argv = true ->
  valid_opt cwd = true ->
  valid_items env = true ->
  read_run_script (make_run_command uni_printable argv cwd env)
  = Some (argv, cwd, env).
Proof.
  intros Ha Hc He. rewrite make_run_command_text. unfold read_run_script.
  rewrite expect_app.
  rewrite parse_list_repr by (assumption || reflexivity).
  rewrite expect_app.
  rewrite parse_opt_repr by (assumption || reflexivity).
  rewrite expect_app.
  rewrite parse_dict_repr by (assumption || reflexivity).
  reflexivity.
Qed.

Lemma read_shell_script_make
  (cwd : option str) (env : list (str * str)) (history : list str) :
  valid_opt cwd = true ->
  valid_items env = true ->
  valid_list history = true ->
  read_shell_script (make_shell_command uni_printable cwd env history)
  = Some (history_lines history, env, cwd).
Proof.
  intros Hc He Hh. rewrite make_shell_command_text.
  unfold read_shell_script.
  rewrite expect_app.
  rewrite parse_str_repr
    by (reflexivity || (apply valid_history_lines; assumption)).
  rewrite expect_app.
  rewrite parse_dict_repr by (assumption || reflexivity).
  rewrite expect_app.
  rewrite parse_opt_repr by (assumption || reflexivity).
  reflexivity.
Qed.

(** C1.  For every argument list, working directory, environment items
    and history made of valid code points, the interpreter reads the
    text of both generated programs as the fixed program text with, in
    the places of the interpolated values, literals whose values are the
    argument list, the working directory (a string or [None]), the
    items of the mapping and the history text: quotes, backslashes,
    newlines and any other character come back unchanged, and nothing
    of a value is read as program text. *)
Theorem repr_literals_read_back
  (argv : list str) (cwd : option str) (env : list (str * str))
  (history : list str) :
  valid_list argv = true ->
  valid_opt cwd = true ->
  valid_items env = true ->
  valid_list history = true ->
  read_run_script (make_run_command uni_printable argv cwd env)
  = Some (argv, cwd, env)
  /\ read_shell_script (make_shell_command uni_printable cwd env history)
     = Some (history_lines history, env, cwd).
Proof.
  intros Ha Hc He Hh. split.
  - now apply read_run_script_make.
  - now apply read_shell_script_make.
Qed.

(** *** The run program *)

Lemma exec_run_script_make
  (p : process) (argv : list str) (cwd : option str) (env : dict) :
  valid_list argv = true ->
  valid_opt cwd = true ->
  valid_items env = true ->
  unique_keys env = true ->
  exec_run_script p (make_run_command uni_printable argv cwd env)
  = Spawned {| child_args := argv;
               child_cwd := resolve_cwd p cwd;
               child_env := dict_update (environ p) env |}.
Proof.
  intros Ha Hc He Hu. unfold exec_run_script.
  rewrite read_run_script_make by assumption.
  rewrite dict_of_pairs_unique by exact Hu. reflexivity.
Qed.

(** C9.  For every argument list, optional working directory and
    environment mapping, the run program reaches [subprocess.run] with
    exactly the argument list, with the working directory given (the
    directory of the running process when none is given) and with an
    environment in which each name has the value of the mapping when the
    mapping has the name and its ambient value otherwise. *)
Theorem run_script_child
  (p : process) (argv : list str) (cwd : option str) (env : dict) :
  valid_list argv = true ->
  valid_opt cwd = true ->
  valid_items env = true ->
  unique_keys env = true ->
  exists c : child,
    exec_run_script p (make_run_command uni_printable argv cwd env)
    = Spawned c
    /\ child_args c = argv
    /\ child_cwd c = match cwd with Some d => d | None => getcwd p end
    /\ forall k : str,
         dict_get k (child_env c)
         = on_top (dict_get k (environ p)) (dict_get k env).
Proof.
  intros Ha Hc He Hu. eexists. split; [now apply exec_run_script_make|].
  cbn [child_args child_cwd child_env]. repeat split.
  intros k. rewrite dict_get_update. now rewrite last_value_unique.
Qed.

(** *** The shell program *)

Lemma call_kwargs_histfile (h : str) (env : dict) :
  call_kwargs [(HISTFILE, h)] env
  = match dict_get HISTFILE env with
    | Some _ => None
    | None => Some ((HISTFILE, h) :: env)
    end.
Proof.
  unfold call_kwargs. cbn [map fst existsb]. rewrite orb_false_r.
  destruct (dict_get HISTFILE env) eqn:E.
  - destruct (existsb (str_eqb HISTFILE) (keys env)) eqn:E'; [reflexivity|].
    apply dict_get_none in E'. congruence.
  - apply dict_get_none in E. now rewrite E.
Qed.

Lemma exec_shell_script_make
  (p : process) (d : str) (cwd : option str) (env : dict)
  (history : list str) :
  valid_opt cwd = true ->
  valid_items env = true ->
  valid_list history = true ->
  unique_keys env = true ->
  exec_shell_script p d (make_shell_command uni_printable cwd env history)
  = if encodable_text (history_lines history) then
      ([(history_path d, history_lines history)],
       match dict_get HISTFILE env with
       | Some _ => TypeError
       | None =>
           let e :=
             dict_update (environ p) ((HISTFILE, history_path d) :: env) in
           Spawned {| child_args := [get_default SHELL (lit "bash") e];
                      child_cwd := resolve_cwd p cwd;
                      child_env := e |}
       end)
    else ([(history_path d, [])], UnicodeEncodeError).
Proof.
  intros Hc He Hh Hu. unfold exec_shell_script.
  rewrite read_shell_script_make by assumption.
  destruct (encodable_text (history_lines history)); [|reflexivity].
  rewrite dict_of_pairs_unique by exact Hu.
  rewrite call_kwargs_histfile.
  now destruct (dict_get HISTFILE env).
Qed.

(** C2, as the code has it.  For every history, the text embedded in
    the shell program for the history file is the lines joined by
    newlines followed by one newline.  For a history with at least one
    line this is every line followed by a newline, in order; for the
    empty history it is a single newline.  The program hands that text
    to [write_text]: the file holds it whenever it can be encoded, and
    is left empty otherwise. *)
Theorem history_file_text
  (p : process) (d : str) (cwd : option str) (env : dict)
  (history : list str) :
  valid_opt cwd = true ->
  valid_items env = true ->
  valid_list history = true ->
  unique_keys env = true ->
  read_shell_script (make_shell_command uni_printable cwd env history)
  = Some (join [NL] history ++ [NL], env, cwd)
  /\ fst (exec_shell_script p d
            (make_shell_command uni_printable cwd env history))
     = [(history_path d,
         if encodable_text (join [NL] history ++ [NL])
         then join [NL] history ++ [NL] else [])]
  /\ join [NL] history ++ [NL]
     = match history with
       | [] => [NL]
       | _ :: _ => each_line_terminated history
       end.
Proof.
  intros Hc He Hh Hu. split; [|split].
  - now apply read_shell_script_make.
  - rewrite exec_shell_script_make by assumption. unfold history_lines.
    now destruct (encodable_text (join [NL] history ++ [NL])).
  - clear. destruct history as [|l history]; [reflexivity|].
    revert l. induction history as [|l' history IH]; intros l.
    + cbn [join each_line_terminated flat_map]. now rewrite app_nil_r.
    + change (join [NL] (l :: l' :: history))
        with (l ++ [NL] ++ join [NL] (l' :: history)).
      rewrite <- !app_assoc, (IH l').
      cbn [each_line_terminated flat_map]. now rewrite <- !app_assoc.
Qed.

(** C3, the case the code misses.  When the mapping itself has the key
    [HISTFILE], no shell is ever started.  The program writes the
    history file and then the call
    [dict(os.environ, HISTFILE=h, **{...})] gets the keyword twice and
    ends the program with [TypeError]; a history text that cannot be
    encoded ends it even earlier, at the write. *)
Theorem histfile_override_raises
  (p : process) (d : str) (cwd : option str) (env : dict)
  (history : list str) (v : str) :
  valid_opt cwd = true ->
  valid_items env = true ->
  valid_list history = true ->
  unique_keys env = true ->
  dict_get HISTFILE env = Some v ->
  exec_shell_script p d (make_shell_command uni_printable cwd env history)
  = if encodable_text (history_lines history)
    then ([(history_path d, history_lines history)], TypeError)
    else ([(history_path d, [])], UnicodeEncodeError).
Proof.
  intros Hc He Hh Hu Hk. rewrite exec_shell_script_make by assumption.
  now rewrite Hk.
Qed.


(** C10.  A history line with a newline in it cannot be told from
    several lines: the one-line history ["a\nb"] and the two-line
    history ["a"; "b"] are different lists and give the same program
    text, character for character. *)
Theorem history_not_injective (cwd : option str) (env : dict) :
  [lit "a" ++ [NL] ++ lit "b"] <> [lit "a"; lit "b"]
  /\ make_shell_command uni_printable cwd env [lit "a" ++ [NL] ++ lit "b"]
     = make_shell_command uni_printable cwd env [lit "a"; lit "b"]
  /\ history_lines [lit "a" ++ [NL] ++ lit "b"]
     = history_lines [lit "a"; lit "b"].
Proof.
  split; [discriminate|]. split; [|reflexivity].
  rewrite !make_shell_command_text. reflexivity.
Qed.

End Programs.

(** ** runner.py *)

(** *** [--env NAME=VALUE] *)

Lemma partition_spec (sep : char) (s : str) :
  let '(before, found, after) := partition sep s in
  contains sep before = false
  /\ ((found = [sep] /\ s = before ++ sep :: after)
      \/ (found = [] /\ after = [] /\ s = before)).
Proof.
  induction s as [|c s IH]; cbn [partition].
  - split; [reflexivity|]. right. repeat split.
  - destruct (c =? sep) eqn:E.
    + apply N.eqb_eq in E. subst c. split; [reflexivity|].
      left. split; reflexivity.
    + destruct (partition sep s) as [[before found] after].
      destruct IH as [Hb Hs]. split.
      * cbn [contains existsb]. rewrite N.eqb_sym, E. exact Hb.
      * destruct Hs as [[-> ->]|[-> [-> ->]]]; [left|right];
          repeat split.
Qed.

(** C8.  Each [--env] argument is cut at its first [=]: the name has no
    [=]; the argument is the name, [=] and the value, or it has no [=]
    at all and is the name, with the empty value.  In the dict built
    from the arguments every name has the value of its last occurrence;
    [--env A=1 --env A=2] gives [A] the value [2]. *)
Theorem env_arguments_last_wins (args : list str) (name : str) :
  Forall
    (fun arg =>
       let (n, v) := environment_variable arg in
       contains 61 n = false
       /\ (arg = n ++ 61 :: v
           \/ (contains 61 arg = false /\ n = arg /\ v = [])))
    args
  /\ dict_get name (dict_of_pairs (map environment_variable args))
     = last_value name (map environment_variable args)
  /\ dict_of_pairs (map environment_variable [lit "A=1"; lit "A=2"])
     = [(lit "A", lit "2")].
Proof.
  split; [|split; [|reflexivity]].
  - apply Forall_forall. intros arg _. unfold environment_variable.
    pose proof (partition_spec 61 arg) as H.
    destruct (partition 61 arg) as [[n found] v].
    destruct H as [Hn [[_ Hs]|[_ [Hv Hs]]]]; split; auto.
    right. subst. auto.
  - unfold dict_of_pairs. rewrite dict_get_update. cbn [dict_get].
    now destruct (last_value name (map environment_variable args)).
Qed.

(** *** The command line *)

(** *** Quoting for the remote shell *)

Lemma is_safe_plain (c : char) :
  is_safe c = true ->
  is_blank c = false /\ (c =? SQUOTE) = false /\ (c =? DQUOTE) = false
  /\ (c =? BACKSLASH) = false /\ sh_special c = false.
Proof.
  unfold is_safe, is_blank, sh_special, SQUOTE, DQUOTE, BACKSLASH, SPACE,
    TAB, NL.
  cbn [lit map list_ascii_of_string existsb N_of_ascii N_of_digits
         N.add N.mul Pos.add Pos.mul Pos.succ].
  intros H. cmp_to_prop; try discriminate; try subst c;
    repeat split; try reflexivity; cmp_decide; reflexivity.
Qed.

Lemma sh_split_safe_word (s : str) :
  forall cur : str,
    forallb is_safe s = true -> sh_split Word cur s = Some [cur ++ s].
Proof.
  induction s as [|c s IH]; intros cur H.
  - now rewrite app_nil_r.
  - cbn [forallb] in H. apply andb_true_iff in H as [Hc Hs].
    destruct (is_safe_plain c Hc) as (H1 & H2 & H3 & H4 & H5).
    cbn [sh_split]. rewrite H1, H2, H3, H4, H5.
    rewrite IH by exact Hs. now rewrite <- app_assoc.
Qed.

Lemma sh_split_single_quoted (s : str) :
  forall cur rest : str,
    sh_split SingleQuoted cur
      (flat_map
         (fun c => if c =? SQUOTE
                   then [SQUOTE; DQUOTE; SQUOTE; DQUOTE; SQUOTE]
                   else [c]) s
       ++ SQUOTE :: rest)
    = sh_split Word (cur ++ s) rest.
Proof.
  induction s as [|c s IH]; intros cur rest.
  - cbn [flat_map app sh_split]. change (SQUOTE =? SQUOTE) with true.
    now rewrite app_nil_r.
  - cbn [flat_map]. rewrite <- app_assoc.
    destruct (c =? SQUOTE) eqn:E.
    + apply N.eqb_eq in E. subst c.
      change (sh_split SingleQuoted cur
                ([SQUOTE; DQUOTE; SQUOTE; DQUOTE; SQUOTE] ++ ?t))
        with (sh_split SingleQuoted (cur ++ [SQUOTE]) t).
      rewrite IH. now rewrite <- app_assoc.
    + cbn [app sh_split]. rewrite E. rewrite IH. now rewrite <- app_assoc.
Qed.

(** One level of shell word splitting undoes [shlex.quote]. *)
Theorem sh_split_shlex_quote (s : str) :
  sh_split Between [] (shlex_quote s) = Some [s].
Proof.
  unfold shlex_quote. destruct s as [|c s]; [reflexivity|].
  destruct (forallb is_safe (c :: s)) eqn:E.
  - cbn [forallb] in E. apply andb_true_iff in E as [Hc Hs].
    destruct (is_safe_plain c Hc) as (H1 & H2 & H3 & H4 & H5).
    cbn [sh_split]. rewrite H1, H2, H3, H4, H5.
    now rewrite sh_split_safe_word.
  - change (sh_split Between [] (SQUOTE :: ?t))
      with (sh_split SingleQuoted [] t).
    now rewrite sh_split_single_quoted.
Qed.

(** C6.  Without [--ssh] the command is the local interpreter, [-c]
    and the program text, and no [ssh]; with [--ssh] given one or more
    times it is [ssh], the given arguments in their order, then
    [python], [-c] and the program text quoted for a shell: a text that
    a shell reads as one word, the program text itself, whatever blanks,
    quotes or other characters the program text has. *)
Theorem command_local_or_ssh
  (c : option str) (e : list (str * str)) (script : str)
  (a : str) (l : list str) :
  command {| cwd := c; env := e; ssh := None |} script
  = [lit "python"; lit "-c"; script]
  /\ (exists quoted : str,
        command {| cwd := c; env := e; ssh := Some (a :: l) |} script
        = [lit "ssh"] ++ (a :: l) ++ [lit "python"; lit "-c"; quoted]
        /\ quoted = shlex_quote script
        /\ sh_split Between [] quoted = Some [script]).
Proof.
  split; [reflexivity|].
  exists (shlex_quote script). split; [reflexivity|]. split; [reflexivity|].
  apply sh_split_shlex_quote.
Qed.

(** C4.  The remote command carries the program text quoted once more
    than the local command does, and the one word splitting done by the
    remote shell gives back [python], [-c] and the program text exactly,
    whatever the text contains; so a history line with a single quote
    reaches the remote interpreter, and the history text it reads,
    intact. *)
Theorem remote_quoting_undone
  (c : option str) (e : list (str * str)) (script : str)
  (a : str) (l : list str) :
  command {| cwd := c; env := e; ssh := None |} script
  = [lit "python"; lit "-c"; script]
  /\ command {| cwd := c; env := e; ssh := Some (a :: l) |} script
     = [lit "ssh"] ++ (a :: l)
       ++ [lit "python"; lit "-c"; shlex_quote script]
  /\ remote_words [lit "python"; lit "-c"; shlex_quote script]
     = Some [lit "python"; lit "-c"; script]
  /\ match
       remote_words
         [lit "python"; lit "-c";
          shlex_quote
            (make_shell_command latin1_printable None []
               [lit "echo 'it''s'"])]
     with
     | Some [_; _; text] => read_shell_script text
     | _ => None
     end
     = Some (lit "echo 'it''s'" ++ [NL], [], None).
Proof.
  split; [reflexivity|]. split; [reflexivity|].
  assert (H : forall t,
    remote_words [lit "python"; lit "-c"; shlex_quote t]
    = Some [lit "python"; lit "-c"; t]).
  { intros t. unfold remote_words.
    change (sh_split Between []
              (join [SPACE] [lit "python"; lit "-c"; shlex_quote t]))
      with (match
              match sh_split Between [] (shlex_quote t) with
              | Some ws => Some (lit "-c" :: ws)
              | None => None
              end
            with
            | Some ws => Some (lit "python" :: ws)
            | None => None
            end).
    now rewrite sh_split_shlex_quote. }
  split; [apply H|]. rewrite H. reflexivity.
Qed.

(** *** Exit status *)

Lemma land_255_byte (n : Z) : (0 <= n <= 255)%Z -> Z.land n 255 = n.
Proof.
  intros H. change 255%Z with (Z.ones 8).
  rewrite Z.land_ones by lia. apply Z.mod_small. lia.
Qed.

(** C5, as the code has it.  When the child has run, the tool ends with
    the child's status (for every status from 0 to 255) and Python
    writes nothing of its own.  When the child cannot be started, no
    handler catches the exception: Python prints the traceback, which
    names the cause, and the tool ends with status 1. *)
Theorem run_script_exit_status
  (spawn : list str -> run_result) (args : Namespace) (script : str) :
  (forall rc : Z,
     spawn (command args script) = Completed rc ->
     (0 <= rc <= 255)%Z ->
     run_script spawn args script = {| status := rc; traceback := None |})
  /\ (forall message : str,
        spawn (command args script) = OSError message ->
        run_script spawn args script
        = {| status := 1; traceback := Some message |}).
Proof.
  unfold run_script. split.
  - intros rc -> Hrc. unfold sys_exit. now rewrite land_255_byte.
  - intros message ->. reflexivity.
Qed.

(** ** Instances *)

Lemma repr_literals_read_back_example :
  (valid_list example_argv = true
   /\ valid_opt (Some (lit "/srv/my dir")) = true
   /\ valid_items example_env = true
   /\ valid_list example_history = true)
  /\ read_run_script
       (make_run_command latin1_printable example_argv
          (Some (lit "/srv/my dir")) example_env)
     = Some (example_argv, Some (lit "/srv/my dir"), example_env)
  /\ read_shell_script
       (make_shell_command latin1_printable (Some (lit "/srv/my dir"))
          example_env example_history)
     = Some (history_lines example_history, example_env,
             Some (lit "/srv/my dir")).
Proof.
  split; [repeat split|].
  apply (repr_literals_read_back latin1_printable); reflexivity.
Defined.

Lemma run_script_child_example :
  exists c : child,
    exec_run_script example_process
      (make_run_command latin1_printable example_argv None example_env)
    = Spawned c
    /\ child_args c = example_argv
    /\ child_cwd c = lit "/home/user"
    /\ forall k : str,
         dict_get k (child_env c)
         = on_top (dict_get k (environ example_process))
             (dict_get k example_env).
Proof.
  apply (run_script_child latin1_printable example_process example_argv
           None example_env); reflexivity.
Defined.

Lemma history_file_text_example :
  read_shell_script
    (make_shell_command latin1_printable None example_env example_history)
  = Some (join [NL] example_history ++ [NL], example_env, None)
  /\ fst (exec_shell_script example_process example_tmpdir
            (make_shell_command latin1_printable None example_env
               example_history))
     = [(history_path example_tmpdir, join [NL] example_history ++ [NL])]
  /\ join [NL] example_history ++ [NL]
     = each_line_terminated example_history.
Proof.
  apply (history_file_text latin1_printable example_process example_tmpdir
           None example_env example_history); reflexivity.
Defined.

(** The empty history: the file holds one newline, not the empty
    text. *)
Lemma history_file_text_empty :
  fst (exec_shell_script example_process example_tmpdir
         (make_shell_command latin1_printable None [] []))
  = [(history_path example_tmpdir, [NL])]
  /\ each_line_terminated [] = [].
Proof. split; reflexivity. Qed.

Lemma histfile_override_raises_example :
  exec_shell_script example_process example_tmpdir
    (make_shell_command latin1_printable None
       [(HISTFILE, lit "/home/user/.history")] example_history)
  = ([(history_path example_tmpdir, history_lines example_history)],
     TypeError).
Proof.
  apply (histfile_override_raises latin1_printable example_process
           example_tmpdir None [(HISTFILE, lit "/home/user/.history")]
           example_history (lit "/home/user/.history")); reflexivity.
Defined.


Lemma run_script_exit_status_example :
  run_script (fun _ => Completed 127)
    {| cwd := None; env := []; ssh := None |} (lit "pass")
  = {| status := 127; traceback := None |}.
Proof.
  apply (run_script_exit_status (fun _ => Completed 127)
           {| cwd := None; env := []; ssh := None |} (lit "pass"));
    [reflexivity|lia].
Defined.

(** A launch failure and a child that returns 1 end the tool with the
    same status. *)
Lemma launch_failure_status_not_distinct :
  status
    (run_script (fun _ => OSError (lit "FileNotFoundError: 'python'"))
       {| cwd := None; env := []; ssh := None |} (lit "pass"))
  = 1%Z
  /\ status
       (run_script (fun _ => Completed 1)
          {| cwd := None; env := []; ssh := None |} (lit "pass"))
     = 1%Z.
Proof. split; reflexivity. Qed.


(** * Further properties of the generators and the runner *)

(** ** The text of the programs *)

Lemma newlines_app (a b : str) : newlines (a ++ b) = (newlines a + newlines b)%nat.
Proof. unfold newlines. now rewrite filter_app, length_app. Qed.

Lemma newlines_none (a : str) : no_newline a = true -> newlines a = 0%nat.
Proof.
  unfold newlines. induction a as [|c a IH]; [reflexivity|].
  cbn [no_newline forallb filter]. intros H.
  apply andb_true_iff in H as [Hc Ha]. apply negb_true_iff in Hc.
  rewrite N.eqb_sym, Hc. now apply IH.
Qed.

Section ProgramText.

Variable uni_printable : char -> bool.

(** X1.  Whatever the argument list, the working directory and the
    mapping are, [dedent] finds the margin of twelve blanks and [strip]
    removes only the first and the last (blank) line: the run program is
    the fixed text of the template with [repr] of the three values in
    its three places. *)
Theorem run_program_text
  (argv : list str) (cwd : option str) (env : list (str * str)) :
  make_run_command uni_printable argv cwd env
  = lit "import os, sys, subprocess" ++ [NL]
    ++ lit "sys.exit(" ++ [NL]
    ++ lit "    subprocess.run(" ++ [NL]
    ++ lit "        " ++ repr_list uni_printable argv ++ lit "," ++ [NL]
    ++ lit "        cwd=" ++ repr_opt uni_printable cwd ++ lit "," ++ [NL]
    ++ lit "        env=dict(os.environ, **"
         ++ repr_dict uni_printable env ++ lit ")," ++ [NL]
    ++ lit "    ).returncode" ++ [NL]
    ++ lit ")".
Proof.
  rewrite make_run_command_text.
  unfold RUN_HEAD, RUN_CWD, RUN_ENV, RUN_TAIL.
  now rewrite <- !app_assoc.
Qed.

(** X2.  The same for the shell program: the template without its
    margin, with [repr] of the history text, of the mapping and of the
    working directory in their places. *)
Theorem shell_program_text
  (cwd : option str) (env : list (str * str)) (history : list str) :
  make_shell_command uni_printable cwd env history
  = lit "import os, sys, subprocess, tempfile" ++ [NL]
    ++ lit "from pathlib import Path" ++ [NL]
    ++ lit "with tempfile.TemporaryDirectory() as d:" ++ [NL]
    ++ lit "    h = Path(d) / " ++ dq (lit "history") ++ [NL]
    ++ lit "    h.write_text("
         ++ repr_str uni_printable (join [NL] history ++ [NL])
         ++ lit ")" ++ [NL]
    ++ lit "    env = dict(os.environ, HISTFILE=h, **"
         ++ repr_dict uni_printable env ++ lit ")" ++ [NL]
    ++ lit "    sys.exit(" ++ [NL]
    ++ lit "        subprocess.run(" ++ [NL]
    ++ lit "            env.get(" ++ dq (lit "SHELL") ++ lit ", "
         ++ dq (lit "bash") ++ lit ")," ++ [NL]
    ++ lit "            env=env," ++ [NL]
    ++ lit "            cwd=" ++ repr_opt uni_printable cwd ++ lit "," ++ [NL]
    ++ lit "        ).returncode" ++ [NL]
    ++ lit "    )".
Proof.
  rewrite make_shell_command_text.
  unfold SHELL_HEAD, SHELL_ENV, SHELL_CWD, SHELL_TAIL, history_lines.
  now rewrite <- !app_assoc.
Qed.

(** X3.  No value adds a line to a program: the run program always has
    7 newline characters (8 lines) and the shell program 12 (13 lines),
    even when the values contain newlines. *)
Theorem program_line_counts
  (argv : list str) (cwd : option str) (env : list (str * str))
  (history : list str) :
  newlines (make_run_command uni_printable argv cwd env) = 7%nat
  /\ newlines (make_shell_command uni_printable cwd env history) = 12%nat.
Proof.
  rewrite make_run_command_text, make_shell_command_text.
  rewrite !newlines_app.
  rewrite (newlines_none _ (no_newline_repr_list uni_printable argv)).
  rewrite (newlines_none _ (no_newline_repr_opt uni_printable cwd)).
  rewrite (newlines_none _ (no_newline_repr_dict uni_printable env)).
  rewrite (newlines_none _
             (no_newline_repr_str uni_printable (history_lines history))).
  split; reflexivity.
Qed.

(** X4.  Each kind of interpolated literal is read back on its own,
    whatever delimiter follows it: the reader stops exactly at the end
    of the literal and returns the value, for a string, a list of
    strings, the items of a mapping and an optional string. *)
Theorem literals_round_trip
  (s : str) (l : list str) (d : list (str * str)) (o : option str)
  (rest : str) :
  valid_str s = true ->
  valid_list l = true ->
  valid_items d = true ->
  valid_opt o = true ->
  delimited rest = true ->
  parse_str (repr_str uni_printable s ++ rest) = Some (s, rest)
  /\ parse_list (repr_list uni_printable l ++ rest) = Some (l, rest)
  /\ parse_dict (repr_dict uni_printable d ++ rest) = Some (d, rest)
  /\ parse_opt (repr_opt uni_printable o ++ rest) = Some (o, rest).
Proof.
  intros Hs Hl Hd Ho Hr. repeat split.
  - now apply parse_str_repr.
  - now apply parse_list_repr.
  - now apply parse_dict_repr.
  - now apply parse_opt_repr.
Qed.

End ProgramText.

Lemma literals_round_trip_example :
  parse_str
    (repr_str latin1_printable [DQUOTE; SQUOTE; BACKSLASH; NL; 7; 233; 8364]
     ++ lit ")")
  = Some ([DQUOTE; SQUOTE; BACKSLASH; NL; 7; 233; 8364], lit ")")
  /\ parse_list (repr_list latin1_printable example_argv ++ lit ")")
     = Some (example_argv, lit ")")
  /\ parse_dict (repr_dict latin1_printable example_env ++ lit ")")
     = Some (example_env, lit ")")
  /\ parse_opt (repr_opt latin1_printable None ++ lit ")")
     = Some (None, lit ")").
Proof.
  apply (literals_round_trip latin1_printable
           [DQUOTE; SQUOTE; BACKSLASH; NL; 7; 233; 8364]
           example_argv example_env None (lit ")")); reflexivity.
Defined.

(** ** The dict of the [--env] arguments *)

Lemma str_eqb_sym (a b : str) : str_eqb a b = str_eqb b a.
Proof.
  destruct (str_eqb a b) eqn:E.
  - apply str_eqb_eq in E. subst. symmetry. apply str_eqb_refl.
  - destruct (str_eqb b a) eqn:E'; [|reflexivity].
    apply str_eqb_eq in E'. subst. now rewrite str_eqb_refl in E.
Qed.

Lemma unique_keys_dict_set (k v : str) (d : dict) :
  unique_keys d = true -> unique_keys (dict_set k v d) = true.
Proof.
  induction d as [|[k0 v0] d IH]; [reflexivity|].
  cbn [unique_keys dict_set]. intros H.
  apply andb_true_iff in H as [H0 Hd].
  destruct (str_eqb k k0) eqn:E; cbn [unique_keys].
  - now rewrite H0, Hd.
  - rewrite (IH Hd), andb_true_r.
    fold (keys (dict_set k v d)). rewrite keys_dict_set.
    fold (keys d) in H0.
    destruct (existsb (str_eqb k) (keys d)); [exact H0|].
    rewrite existsb_app. cbn [existsb].
    apply negb_true_iff in H0. rewrite H0, str_eqb_sym, E. reflexivity.
Qed.

Lemma unique_keys_dict_update (items : list (str * str)) :
  forall d : dict,
    unique_keys d = true -> unique_keys (dict_update d items) = true.
Proof.
  unfold dict_update.
  induction items as [|[k v] items IH]; intros d H; cbn [fold_left].
  - exact H.
  - apply IH. now apply unique_keys_dict_set.
Qed.

Lemma valid_items_dict_set (k v : str) (d : dict) :
  valid_str k = true -> valid_str v = true ->
  valid_items d = true -> valid_items (dict_set k v d) = true.
Proof.
  intros Hk Hv. unfold valid_items.
  induction d as [|[k0 v0] d IH]; cbn [dict_set forallb fst snd].
  - now rewrite Hk, Hv.
  - intros H. apply andb_true_iff in H as [H0 Hd].
    apply andb_true_iff in H0 as [Hk0 Hv0].
    destruct (str_eqb k k0); cbn [forallb fst snd].
    + now rewrite Hk0, Hv, Hd.
    + now rewrite Hk0, Hv0, IH.
Qed.

Lemma valid_items_dict_update (items : list (str * str)) :
  forall d : dict,
    valid_items items = true ->
    valid_items d = true -> valid_items (dict_update d items) = true.
Proof.
  unfold dict_update.
  induction items as [|[k v] items IH]; intros d Hi Hd; cbn [fold_left].
  - exact Hd.
  - unfold valid_items in Hi. cbn [forallb fst snd] in Hi.
    apply andb_true_iff in Hi as [Hkv Hi].
    apply andb_true_iff in Hkv as [Hk Hv].
    apply IH; [exact Hi|]. now apply valid_items_dict_set.
Qed.

Lemma dict_get_of_pairs (k : str) (items : list (str * str)) :
  dict_get k (dict_of_pairs items) = last_value k items.
Proof.
  unfold dict_of_pairs. rewrite dict_get_update. cbn [dict_get].
  now destruct (last_value k items).
Qed.


(** X6.  An [--env] argument made of a name without [=], then [=],
    then any value is cut back into that name and that value, also when
    the value itself has [=] in it. *)
Theorem environment_variable_round_trip (name value : str) :
  contains 61 name = false ->
  environment_variable (name ++ 61 :: value) = (name, value).
Proof.
  unfold environment_variable.
  induction name as [|c name IH]; intros H.
  - reflexivity.
  - cbn [contains existsb] in H. apply orb_false_iff in H as [Hc Hn].
    cbn [app partition]. rewrite N.eqb_sym, Hc.
    specialize (IH Hn).
    destruct (partition 61 (name ++ 61 :: value)) as [[b f] a].
    now inversion IH.
Qed.

Lemma environment_variable_round_trip_example :
  environment_variable (lit "PS1" ++ 61 :: lit "a=b = c")
  = (lit "PS1", lit "a=b = c").
Proof.
  apply (environment_variable_round_trip (lit "PS1") (lit "a=b = c")).
  reflexivity.
Defined.

(** ** The shell program, whole *)

Section ShellProgram.

Variable uni_printable : char -> bool.

(** X7.  The shell program creates the history file first and ends in
    one of three ways.  When the history text cannot be encoded (it
    holds a lone surrogate) the write raises [UnicodeEncodeError] and
    the file stays empty.  Otherwise the file holds the history text,
    and the program ends with [TypeError] exactly when the mapping has
    the key [HISTFILE], and starts a child when it has not. *)
Theorem shell_program_outcome
  (p : process) (d : str) (cwd : option str) (env : dict)
  (history : list str) :
  valid_opt cwd = true ->
  valid_items env = true ->
  valid_list history = true ->
  unique_keys env = true ->
  let run :=
    exec_shell_script p d
      (make_shell_command uni_printable cwd env history) in
  let text := history_lines history in
  fst run = [(history_path d, if encodable_text text then text else [])]
  /\ (snd run = UnicodeEncodeError <-> encodable_text text = false)
  /\ (snd run = TypeError
      <-> encodable_text text = true /\ dict_get HISTFILE env <> None)
  /\ ((exists c, snd run = Spawned c)
      <-> encodable_text text = true /\ dict_get HISTFILE env = None).
Proof.
  intros Hc He Hh Hu run text. subst run text.
  rewrite exec_shell_script_make by assumption.
  destruct (encodable_text (history_lines history)); cbn [fst snd];
    (split; [reflexivity|]);
    destruct (dict_get HISTFILE env) as [v|];
    repeat split; intros;
    repeat match goal with
    | H : exists _, _ |- _ => destruct H
    | H : _ /\ _ |- _ => destruct H
    end;
    try discriminate; try congruence; try (eexists; reflexivity).
Qed.

(** X8.  When the history text can be encoded and the mapping does not
    name [HISTFILE], the child of the shell program starts in the given
    directory (the process's own when none is given); in its
    environment [HISTFILE] is the history file in the temporary
    directory, also when the ambient environment has a [HISTFILE] of
    its own, and every other name has the value of the mapping if the
    mapping has it and its ambient value otherwise. *)
Theorem shell_child_environment
  (p : process) (d : str) (cwd : option str) (env : dict)
  (history : list str) :
  valid_opt cwd = true ->
  valid_items env = true ->
  valid_list history = true ->
  unique_keys env = true ->
  encodable_text (history_lines history) = true ->
  dict_get HISTFILE env = None ->
  exists c : child,
    snd (exec_shell_script p d
           (make_shell_command uni_printable cwd env history))
    = Spawned c
    /\ child_cwd c = match cwd with Some dir => dir | None => getcwd p end
    /\ dict_get HISTFILE (child_env c) = Some (history_path d)
    /\ forall k : str,
         k <> HISTFILE ->
         dict_get k (child_env c)
         = on_top (dict_get k (environ p)) (dict_get k env).
Proof.
  intros Hc He Hh Hu Henc Hk. rewrite exec_shell_script_make by assumption.
  rewrite Henc, Hk. eexists. split; [reflexivity|].
  cbn [snd child_cwd child_env]. split; [reflexivity|]. split.
  - rewrite dict_get_update. cbn [last_value].
    rewrite last_value_unique by exact Hu. rewrite Hk.
    now rewrite str_eqb_refl.
  - intros k Hne. rewrite dict_get_update. cbn [last_value].
    rewrite last_value_unique by exact Hu.
    apply str_eqb_neq in Hne. rewrite Hne.
    now destruct (dict_get k env).
Qed.

End ShellProgram.

Lemma shell_program_outcome_example :
  fst (exec_shell_script example_process example_tmpdir
         (make_shell_command latin1_printable None example_env
            [[56448]; lit "ls"]))
  = [(history_path example_tmpdir, [])]
  /\ (snd (exec_shell_script example_process example_tmpdir
             (make_shell_command latin1_printable None example_env
                [[56448]; lit "ls"]))
      = UnicodeEncodeError
      <-> encodable_text (history_lines [[56448]; lit "ls"]) = false)
  /\ (snd (exec_shell_script example_process example_tmpdir
             (make_shell_command latin1_printable None example_env
                [[56448]; lit "ls"]))
      = TypeError
      <-> encodable_text (history_lines [[56448]; lit "ls"]) = true
          /\ dict_get HISTFILE example_env <> None)
  /\ ((exists c,
         snd (exec_shell_script example_process example_tmpdir
                (make_shell_command latin1_printable None example_env
                   [[56448]; lit "ls"]))
         = Spawned c)
      <-> encodable_text (history_lines [[56448]; lit "ls"]) = true
          /\ dict_get HISTFILE example_env = None).
Proof.
  apply (shell_program_outcome latin1_printable example_process
           example_tmpdir None example_env [[56448]; lit "ls"]);
    reflexivity.
Defined.

Lemma shell_child_environment_example :
  exists c : child,
    snd (exec_shell_script
           {| environ := [(HISTFILE, lit "/home/user/.zsh_history");
                          (lit "TERM", lit "xterm")];
              getcwd := lit "/home/user" |}
           example_tmpdir
           (make_shell_command latin1_printable (Some (lit "/srv"))
              example_env example_history))
    = Spawned c
    /\ child_cwd c = lit "/srv"
    /\ dict_get HISTFILE (child_env c) = Some (history_path example_tmpdir)
    /\ forall k : str,
         k <> HISTFILE ->
         dict_get k (child_env c)
         = on_top
             (dict_get k [(HISTFILE, lit "/home/user/.zsh_history");
                          (lit "TERM", lit "xterm")])
             (dict_get k example_env).
Proof.
  apply (shell_child_environment latin1_printable
           {| environ := [(HISTFILE, lit "/home/user/.zsh_history");
                          (lit "TERM", lit "xterm")];
              getcwd := lit "/home/user" |}
           example_tmpdir (Some (lit "/srv")) example_env example_history);
    reflexivity.
Defined.

(** ** The entry points, end to end *)

Lemma remote_words_quote (t : str) :
  remote_words [lit "python"; lit "-c"; shlex_quote t]
  = Some [lit "python"; lit "-c"; t].
Proof.
  unfold remote_words.
  change (sh_split Between []
            (join [SPACE] [lit "python"; lit "-c"; shlex_quote t]))
    with (match
            match sh_split Between [] (shlex_quote t) with
            | Some ws => Some (lit "-c" :: ws)
            | None => None
            end
          with
          | Some ws => Some (lit "python" :: ws)
          | None => None
          end).
  now rewrite sh_split_shlex_quote.
Qed.

Section EndToEnd.

Variable uni_printable : char -> bool.
Variable spawn : list str -> run_result.

(** X9.  [main_run] without [--ssh]: the tool runs [python -c] with a
    program which, run by a process [p], starts the child with exactly
    the argument list, in the [--cwd] directory (that of [p] without
    [--cwd]), and with the environment of [p] where each [--env] name
    has the value of its last occurrence; the tool ends as
    [sys.exit(returncode)] says. *)
Theorem main_run_local
  (p : process) (c : option str) (items : list (str * str))
  (argv : list str) :
  valid_list argv = true ->
  valid_opt c = true ->
  valid_items items = true ->
  exists (script : str) (ch : child),
    main_run uni_printable spawn
      {| cwd := c; env := items; ssh := None |} argv
    = match spawn [lit "python"; lit "-c"; script] with
      | Completed returncode => sys_exit returncode
      | OSError message => uncaught message
      end
    /\ exec_run_script p script = Spawned ch
    /\ child_args ch = argv
    /\ child_cwd ch = match c with Some dir => dir | None => getcwd p end
    /\ forall k : str,
         dict_get k (child_env ch)
         = on_top (dict_get k (environ p)) (last_value k items).
Proof.
  intros Ha Hc Hi.
  exists (make_run_command uni_printable argv c (dict_of_pairs items)).
  eexists. split; [reflexivity|]. split.
  - apply exec_run_script_make; try assumption.
    + now apply valid_items_dict_update.
    + now apply unique_keys_dict_update.
  - cbn [child_args child_cwd child_env]. repeat split.
    intros k. rewrite dict_get_update.
    rewrite last_value_unique by now apply unique_keys_dict_update.
    now rewrite dict_get_of_pairs.
Qed.

(** X10.  [main_shell] with [--ssh]: the tool runs [ssh] with the given
    arguments and a remote command from which the remote shell obtains
    [python], [-c] and a program; that program, run in a temporary
    directory [d], writes the history lines to [d/history] and starts a
    child whose [HISTFILE] is that file.  (The history text can be
    encoded and no [--env] argument names [HISTFILE].) *)
Theorem main_shell_remote
  (p : process) (d : str) (c : option str) (items : list (str * str))
  (a : str) (l : list str) (history : list str) :
  valid_opt c = true ->
  valid_items items = true ->
  valid_list history = true ->
  encodable_text (history_lines history) = true ->
  last_value HISTFILE items = None ->
  exists (quoted script : str) (ch : child),
    main_shell uni_printable spawn
      {| cwd := c; env := items; ssh := Some (a :: l) |} history
    = match
        spawn ([lit "ssh"] ++ (a :: l) ++ [lit "python"; lit "-c"; quoted])
      with
      | Completed returncode => sys_exit returncode
      | OSError message => uncaught message
      end
    /\ remote_words [lit "python"; lit "-c"; quoted]
       = Some [lit "python"; lit "-c"; script]
    /\ exec_shell_script p d script
       = ([(history_path d, join [NL] history ++ [NL])], Spawned ch)
    /\ dict_get HISTFILE (child_env ch) = Some (history_path d).
Proof.
  intros Hc Hi Hh Henc Hk.
  exists (shlex_quote
            (make_shell_command uni_printable c (dict_of_pairs items)
               history)).
  exists (make_shell_command uni_printable c (dict_of_pairs items) history).
  eexists. split; [reflexivity|]. split; [apply remote_words_quote|].
  assert (Hu : unique_keys (dict_of_pairs items) = true)
    by now apply unique_keys_dict_update.
  assert (Hv : valid_items (dict_of_pairs items) = true)
    by now apply valid_items_dict_update.
  rewrite exec_shell_script_make by assumption.
  rewrite Henc, dict_get_of_pairs, Hk. split; [reflexivity|].
  cbn [child_env]. rewrite dict_get_update. cbn [last_value].
  rewrite last_value_unique by exact Hu.
  rewrite dict_get_of_pairs, Hk. now rewrite str_eqb_refl.
Qed.

(** X11.  A child ended by signal [n] has return code [-n]; the tool
    then ends with status [256 - n] (247 for SIGKILL), neither by the
    signal nor with a status the child chose. *)
Theorem run_script_signalled
  (args : Namespace) (script : str) (n : Z) :
  (1 <= n <= 255)%Z ->
  spawn (command args script) = Completed (- n) ->
  status (run_script spawn args script) = (256 - n)%Z.
Proof.
  intros Hn Hs. unfold run_script. rewrite Hs. cbn [sys_exit status].
  change 255%Z with (Z.ones 8). rewrite Z.land_ones by lia.
  change (2 ^ 8)%Z with 256%Z.
  symmetry. apply (Z.mod_unique (- n) 256 (-1)); lia.
Qed.

End EndToEnd.

Lemma main_run_local_example :
  exists (script : str) (ch : child),
    main_run latin1_printable (fun _ => Completed 0)
      {| cwd := None;
         env := [(lit "A", lit "1"); (lit "B", lit "x"); (lit "A", lit "2")];
         ssh := None |}
      example_argv
    = match (fun _ : list str => Completed 0) [lit "python"; lit "-c"; script]
      with
      | Completed returncode => sys_exit returncode
      | OSError message => uncaught message
      end
    /\ exec_run_script example_process script = Spawned ch
    /\ child_args ch = example_argv
    /\ child_cwd ch = lit "/home/user"
    /\ forall k : str,
         dict_get k (child_env ch)
         = on_top (dict_get k (environ example_process))
             (last_value k
                [(lit "A", lit "1"); (lit "B", lit "x"); (lit "A", lit "2")]).
Proof.
  apply (main_run_local latin1_printable (fun _ => Completed 0)
           example_process None
           [(lit "A", lit "1"); (lit "B", lit "x"); (lit "A", lit "2")]
           example_argv); reflexivity.
Defined.

Lemma main_shell_remote_example :
  exists (quoted script : str) (ch : child),
    main_shell latin1_printable (fun _ => Completed 0)
      {| cwd := None; env := example_env;
         ssh := Some [lit "user@host"; lit "-p"; lit "2222"] |}
      example_history
    = match
        (fun _ : list str => Completed 0)
          ([lit "ssh"] ++ [lit "user@host"; lit "-p"; lit "2222"]
           ++ [lit "python"; lit "-c"; quoted])
      with
      | Completed returncode => sys_exit returncode
      | OSError message => uncaught message
      end
    /\ remote_words [lit "python"; lit "-c"; quoted]
       = Some [lit "python"; lit "-c"; script]
    /\ exec_shell_script example_process example_tmpdir script
       = ([(history_path example_tmpdir, join [NL] example_history ++ [NL])],
          Spawned ch)
    /\ dict_get HISTFILE (child_env ch) = Some (history_path example_tmpdir).
Proof.
  apply (main_shell_remote latin1_printable (fun _ => Completed 0)
           example_process example_tmpdir None example_env
           (lit "user@host") [lit "-p"; lit "2222"] example_history);
    reflexivity.
Defined.

Lemma run_script_signalled_example :
  status
    (run_script (fun _ => Completed (-9))
       {| cwd := None; env := []; ssh := None |} (lit "pass"))
  = 247%Z.
Proof.
  apply (run_script_signalled (fun _ => Completed (-9))
           {| cwd := None; env := []; ssh := None |} (lit "pass") 9);
    [lia|reflexivity].
Defined.

(** ** The history text, line by line *)

Lemma join_snoc_empty (h : list str) :
  forall l : str,
    join [NL] ((l :: h) ++ [[]]) = join [NL] (l :: h) ++ [NL].
Proof.
  induction h as [|l' h IH]; intros l.
  - cbn [app join]. now rewrite ?app_nil_r.
  - change ((l :: l' :: h) ++ [[]]) with (l :: ((l' :: h) ++ [[]])).
    change (join [NL] (l :: (l' :: h) ++ [[]]))
      with (l ++ [NL] ++ join [NL] ((l' :: h) ++ [[]])).
    rewrite IH. rewrite join_cons_cons. now rewrite <- !app_assoc.
Qed.

(** X12.  When no history line has a newline in it, the lines of the
    history text are the history lines, in order, followed by one empty
    last line (the text ends with a newline): on such histories nothing
    is merged or lost. *)
Theorem history_lines_split (l : str) (history : list str) :
  forallb no_newline (l :: history) = true ->
  split_nl [] (history_lines (l :: history)) = (l :: history) ++ [[]].
Proof.
  intros H. unfold history_lines. rewrite <- join_snoc_empty.
  change ((l :: history) ++ [[]]) with (l :: (history ++ [[]])).
  rewrite split_nl_join; [reflexivity|].
  change (l :: history ++ [[]]) with ((l :: history) ++ [[]]).
  rewrite forallb_app, H. reflexivity.
Qed.

Lemma history_lines_split_example :
  split_nl [] (history_lines example_history) = example_history ++ [[]].
Proof.
  apply (history_lines_split (lit "echo 'hi'") [lit "ls -l"]). reflexivity.
Defined.

(** ** [--cmd] *)

Lemma is_safe_shlex (c : char) :
  is_safe c = true ->
  shlex_whitespace c = false /\ is_quote c = false
  /\ (c =? BACKSLASH) = false.
Proof.
  intros H. destruct (is_safe_plain c H) as (H1 & H2 & H3 & H4 & H5).
  unfold shlex_whitespace, is_quote. unfold is_blank in H1.
  apply orb_false_iff in H1 as [Hs Ht]. rewrite Hs, Ht, H2, H3, H4.
  cbn [orb]. repeat split.
  unfold sh_special in H5. apply orb_false_iff in H5 as [_ Hn].
  rewrite Hn, orb_false_r.
  unfold is_safe in H. unfold CR.
  cbn [lit map list_ascii_of_string existsb N_of_ascii N_of_digits
         N.add N.mul Pos.add Pos.mul Pos.succ] in H.
  cmp_to_prop; try discriminate; try subst c; try reflexivity;
    cmp_decide; reflexivity.
Qed.

Lemma shlex_tokens_word (w : str) :
  forall (token : str) (quoted : bool) (rest : str),
    forallb (fun c => negb (shlex_whitespace c || is_quote c
                            || (c =? BACKSLASH))) w = true ->
    shlex_tokens ShWord token quoted (w ++ rest)
    = shlex_tokens ShWord (token ++ w) quoted rest.
Proof.
  induction w as [|c w IH]; intros token quoted rest H.
  - now rewrite app_nil_r.
  - cbn [forallb] in H. apply andb_true_iff in H as [Hc Hw].
    apply negb_true_iff in Hc.
    apply orb_false_iff in Hc as [Hc Hb].
    apply orb_false_iff in Hc as [Hs Hq].
    cbn [app shlex_tokens]. rewrite Hs, Hq, Hb.
    rewrite IH by exact Hw. now rewrite <- app_assoc.
Qed.

Lemma shlex_tokens_single_quoted (s : str) :
  forall token rest : str,
    shlex_tokens (ShQuote SQUOTE) token true
      (flat_map
         (fun c => if c =? SQUOTE
                   then [SQUOTE; DQUOTE; SQUOTE; DQUOTE; SQUOTE]
                   else [c]) s
       ++ SQUOTE :: rest)
    = shlex_tokens ShWord (token ++ s) true rest.
Proof.
  induction s as [|c s IH]; intros token rest.
  - cbn [flat_map app shlex_tokens]. change (SQUOTE =? SQUOTE) with true.
    now rewrite app_nil_r.
  - cbn [flat_map]. rewrite <- app_assoc.
    destruct (c =? SQUOTE) eqn:E.
    + apply N.eqb_eq in E. subst c.
      change (shlex_tokens (ShQuote SQUOTE) token true
                ([SQUOTE; DQUOTE; SQUOTE; DQUOTE; SQUOTE] ++ ?t))
        with (shlex_tokens (ShQuote SQUOTE) (token ++ [SQUOTE]) true t).
      rewrite IH. now rewrite <- app_assoc.
    + cbn [app shlex_tokens]. rewrite E.
      change (SQUOTE =? DQUOTE) with false. rewrite andb_false_r.
      rewrite IH. now rewrite <- app_assoc.
Qed.

Lemma forallb_safe_plain (s : str) :
  forallb is_safe s = true ->
  forallb (fun c => negb (shlex_whitespace c || is_quote c
                          || (c =? BACKSLASH))) s = true.
Proof.
  induction s as [|c s IH]; [reflexivity|].
  cbn [forallb]. intros H. apply andb_true_iff in H as [Hc Hs].
  destruct (is_safe_shlex c Hc) as (H1 & H2 & H3).
  rewrite H1, H2, H3. now apply IH.
Qed.

(** A quoted word followed by the end of the line or by a space is one
    token. *)
Lemma shlex_tokens_quote (s : str) :
  shlex_tokens ShBlank [] false (shlex_quote s) = Some [s]
  /\ forall rest,
       shlex_tokens ShBlank [] false (shlex_quote s ++ SPACE :: rest)
       = match shlex_tokens ShBlank [] false rest with
         | Some ts => Some (s :: ts)
         | None => None
         end.
Proof.
  unfold shlex_quote. destruct s as [|c s].
  - split; [reflexivity|]. intros rest. cbn [lit app].
    change (shlex_tokens ShBlank [] false
              (lit "''" ++ SPACE :: rest))
      with (push_token [] true (shlex_tokens ShBlank [] false rest)).
    unfold push_token. now destruct (shlex_tokens ShBlank [] false rest).
  - destruct (forallb is_safe (c :: s)) eqn:E.
    + pose proof (forallb_safe_plain _ E) as Hp.
      cbn [forallb] in E. apply andb_true_iff in E as [Hc Hs].
      destruct (is_safe_shlex c Hc) as (H1 & H2 & H3).
      cbn [forallb] in Hp. apply andb_true_iff in Hp as [_ Hp].
      split.
      * cbn [shlex_tokens]. rewrite H1, H2, H3.
        rewrite <- (app_nil_r s) at 1.
        rewrite shlex_tokens_word by exact Hp. reflexivity.
      * intros rest. cbn [app shlex_tokens]. rewrite H1, H2, H3.
        rewrite shlex_tokens_word by exact Hp.
        change (shlex_tokens ShWord ([c] ++ s) false (SPACE :: rest))
          with (push_token (c :: s) false
                  (shlex_tokens ShBlank [] false rest)).
        unfold push_token.
        now destruct (shlex_tokens ShBlank [] false rest).
    + split.
      * change (shlex_tokens ShBlank [] false (SQUOTE :: ?t))
          with (shlex_tokens (ShQuote SQUOTE) [] true t).
        now rewrite shlex_tokens_single_quoted.
      * intros rest. rewrite <- app_comm_cons.
        change (shlex_tokens ShBlank [] false (SQUOTE :: ?t))
          with (shlex_tokens (ShQuote SQUOTE) [] true t).
        rewrite <- app_assoc. cbn [app].
        rewrite shlex_tokens_single_quoted.
        change (shlex_tokens ShWord ([] ++ c :: s) true (SPACE :: rest))
          with (push_token (c :: s) true
                  (shlex_tokens ShBlank [] false rest)).
        unfold push_token.
        now destruct (shlex_tokens ShBlank [] false rest).
Qed.

(** X13.  Every argument list can be given through [--cmd]: the words
    quoted with [shlex.quote] and joined by spaces are split back into
    exactly the words, whatever they contain (blanks, quotes,
    backslashes, newlines, the empty word). *)
Theorem cmd_quoted_words (argv : list str) :
  argv_of (Cmd (join [SPACE] (map shlex_quote argv))) = Some argv.
Proof.
  unfold argv_of, shlex_split.
  induction argv as [|x argv IH]; [reflexivity|].
  destruct argv as [|y argv].
  - cbn [map join]. apply shlex_tokens_quote.
  - cbn [map] in *. rewrite join_cons_cons.
    change ([SPACE] ++ ?t) with (SPACE :: t).
    rewrite (proj2 (shlex_tokens_quote x)). now rewrite IH.
Qed.

(** X14.  Words without whitespace, quotes and backslashes, separated
    by single spaces, are split into exactly these words: [--cmd] with
    such a line and [--argv] with each word give the same argument
    list. *)
Theorem cmd_plain_words (words : list str) :
  forallb plain_word words = true ->
  argv_of (Cmd (join [SPACE] words)) = argv_of (Argv words).
Proof.
  unfold argv_of, shlex_split.
  assert (Hone : forall w rest,
    plain_word w = true ->
    shlex_tokens ShBlank [] false w = Some [w]
    /\ shlex_tokens ShBlank [] false (w ++ SPACE :: rest)
       = match shlex_tokens ShBlank [] false rest with
         | Some ts => Some (w :: ts)
         | None => None
         end).
  { intros w rest Hw. unfold plain_word in Hw.
    apply andb_true_iff in Hw as [Hne Hp].
    destruct w as [|c w]; [discriminate|]. clear Hne.
    pose proof Hp as Hp'. cbn [forallb] in Hp'.
    apply andb_true_iff in Hp' as [Hc Hw].
    apply negb_true_iff in Hc.
    apply orb_false_iff in Hc as [Hc Hb].
    apply orb_false_iff in Hc as [Hs Hq].
    split.
    - cbn [shlex_tokens]. rewrite Hs, Hb, Hq.
      rewrite <- (app_nil_r w) at 1.
      rewrite shlex_tokens_word by exact Hw. reflexivity.
    - cbn [app shlex_tokens]. rewrite Hs, Hb, Hq.
      rewrite shlex_tokens_word by exact Hw.
      change (shlex_tokens ShWord ([c] ++ w) false (SPACE :: rest))
        with (push_token (c :: w) false
                (shlex_tokens ShBlank [] false rest)).
      unfold push_token.
      now destruct (shlex_tokens ShBlank [] false rest). }
  induction words as [|x words IH]; intros H; [reflexivity|].
  cbn [forallb] in H. apply andb_true_iff in H as [Hx Hw].
  destruct words as [|y words].
  - cbn [join]. now apply (Hone x []).
  - rewrite join_cons_cons. change ([SPACE] ++ ?t) with (SPACE :: t).
    rewrite (proj2 (Hone x _ Hx)). now rewrite (IH Hw).
Qed.

Lemma cmd_plain_words_example :
  argv_of (Cmd (lit "echo hello world"))
  = argv_of (Argv [lit "echo"; lit "hello"; lit "world"]).
Proof.
  apply (cmd_plain_words [lit "echo"; lit "hello"; lit "world"]).
  reflexivity.
Defined.

(** X15.  A single quote that is never closed makes [--cmd] fail: when
    the text before the quote has no quote and no backslash and the
    text after it has no single quote, [shlex.split] raises
    [ValueError] and there is no argument list. *)
Theorem cmd_unclosed_quote (before after : str) :
  forallb (fun c => negb (is_quote c || (c =? BACKSLASH))) before = true ->
  contains SQUOTE after = false ->
  argv_of (Cmd (before ++ SQUOTE :: after)) = None.
Proof.
  intros Hb Ha. unfold argv_of, shlex_split.
  assert (Hq : forall token quoted,
    shlex_tokens (ShQuote SQUOTE) token quoted after = None).
  { clear Hb. induction after as [|c after IH]; intros token quoted.
    - reflexivity.
    - cbn [contains existsb] in Ha. apply orb_false_iff in Ha as [Hc Ha].
      cbn [shlex_tokens]. rewrite N.eqb_sym, Hc.
      change (SQUOTE =? DQUOTE) with false. rewrite andb_false_r.
      now apply IH. }
  assert (Hgen : forall st token quoted,
    st = ShBlank \/ st = ShWord ->
    shlex_tokens st token quoted (before ++ SQUOTE :: after) = None).
  { induction before as [|c before IH]; intros st token quoted Hst.
    - cbn [app]. destruct Hst as [-> | ->]; cbn [shlex_tokens];
        change (shlex_whitespace SQUOTE) with false;
        change (SQUOTE =? BACKSLASH) with false;
        change (is_quote SQUOTE) with true; cbv iota; apply Hq.
    - cbn [forallb] in Hb. apply andb_true_iff in Hb as [Hc Hb].
      apply negb_true_iff in Hc. apply orb_false_iff in Hc as [Hcq Hcb].
      specialize (IH Hb).
      cbn [app]. destruct Hst as [-> | ->]; cbn [shlex_tokens];
        rewrite Hcq, Hcb; destruct (shlex_whitespace c);
        rewrite ?IH by auto; reflexivity. }
  apply Hgen. now left.
Qed.

Lemma cmd_unclosed_quote_example :
  argv_of (Cmd (lit "echo " ++ SQUOTE :: lit "hello world")) = None.
Proof.
  apply (cmd_unclosed_quote (lit "echo ") (lit "hello world"));
    reflexivity.
Defined.
